(** * A shallow embedding of the automata package (automata/automata.go)

    The Go package keeps automaton states as [node] struct values.  A node
    value carries its name, its finality flag and a Go map from input
    strings to slices of node values.  Go maps are reference objects: copying
    a node value copies the name and the flag but shares the transition
    table.  The embedding therefore keeps every transition table in an
    explicit heap and lets a node value hold the address of its table, so
    that value copies and table sharing behave as in the source.

    Slices are lists.  The package never assigns to a slice element and
    uses the result of an [append] before it appends to the same slice
    again, so the spare capacity an [append] may write to is not observed.

    Recursion that is not structural takes a budget; running out of budget
    is a result of its own, distinct from every result of the program. *)

From stdpp Require Import base gmap strings list sorting fin_maps.

#[local] Set Warnings "-clear-no-such-hyp".

(** ** Data model *)

(** [type node struct { Name string; Transitions map[string][]node; Final bool }].
    [Transitions] is [None] for the nil map of a zero-valued node and
    [Some a] for the table allocated at address [a]. *)
Record node := mkNode {
  Name : string;
  Transitions : option nat;
  Final : bool
}.

#[global] Instance node_eq_dec : EqDecision node.
Proof. solve_decision. Defined.

(** The zero value of [node]. *)
Definition zero_node : node := mkNode "" None false.

(** The heap of transition tables, addressed by position.  [make(map...)]
    appends an empty table. *)
Abbreviation table := (gmap string (list node)).
Abbreviation heap := (list (gmap string (list node))).

(** [type automata struct { beginning node; nodes map[string]node }].
    [nodes] is [None] for the nil map. *)
Record automata := mkAutomata {
  beginning : node;
  nodes : option (gmap string node)
}.

(** The reserved input string of silent transitions: a single space. *)
Definition epsilon : string := " ".

(** Reading [n.Transitions]: a nil map reads as the empty table. *)
Definition table_of (h : heap) (n : node) : gmap string (list node) :=
  match Transitions n with
  | Some a => default ∅ (h !! a)
  | None => ∅
  end.

(** [n.Transitions[a]] used as a slice: an absent key reads as the nil slice. *)
Definition slice_of (h : heap) (n : node) (a : string) : list node :=
  default [] (table_of h n !! a).

(** ** Iteration order of Go maps

    A [for ... range] loop over a Go map visits every entry once, in an
    order the language leaves unspecified.  All maps of the package have
    string keys; the embedding is parameterised by an arbitrary
    rearrangement of the list of entries, which may depend on the keys. *)
Record MapOrder := mkMapOrder {
  reorder : ∀ V : Type, list (string * V) → list (string * V);
  reorder_perm : ∀ (V : Type) (l : list (string * V)), reorder V l ≡ₚ l
}.

Definition range_map {V : Type} (o : MapOrder) (m : gmap string V) : list (string * V) :=
  reorder o V (map_to_list m).

Definition id_order : MapOrder :=
  mkMapOrder (λ _ l, l) (λ _ l, reflexivity l).

Definition rev_order : MapOrder :=
  mkMapOrder (λ _ l, reverse l) (λ _ l, reverse_Permutation l).

(** ** Epsilon closure (lines 314-340) *)

(** The [for _, node := range inputNode.Transitions[" "]] loop of
    [epsilonRecursive]; [rec] is the recursive call. *)
Fixpoint visit_each (rec : node → gmap string node → option (gmap string node))
    (l : list node) (eTransitions : gmap string node) : option (gmap string node) :=
  match l with
  | [] => Some eTransitions
  | nd :: rest =>
      match eTransitions !! Name nd with
      | Some _ => visit_each rec rest eTransitions
      | None =>
          match rec nd eTransitions with
          | Some eTransitions' => visit_each rec rest eTransitions'
          | None => None
          end
      end
  end.

(** [func (inputNode *node) epsilonRecursive(eTransitions map[string]node)].
    The visited map is shared and mutated by the source; here it is threaded.
    [None] means the recursion budget [fuel] was exhausted. *)
Fixpoint epsilonRecursive (fuel : nat) (h : heap) (inputNode : node)
    (eTransitions : gmap string node) : option (gmap string node) :=
  match fuel with
  | O => None
  | S fuel' =>
      visit_each (epsilonRecursive fuel' h)
        (slice_of h inputNode epsilon)
        (<[Name inputNode := inputNode]> eTransitions)
  end.

(** [func (inputNode *node) EpsilonClosure() []node]. *)
Definition EpsilonClosure (o : MapOrder) (fuel : nat) (h : heap) (inputNode : node)
    : option (list node) :=
  eTransitions ← epsilonRecursive fuel h inputNode ∅;
  Some ((range_map o eTransitions).*2).

(** [func (head *node) GetNext(a string) []node]. *)
Definition GetNext (o : MapOrder) (fuel : nat) (h : heap) (head : node) (a : string)
    : option (list node) :=
  let lookup := table_of h head !! a in
  let nextNodes := default [] lookup in
  closure ← EpsilonClosure o fuel h head;
  let nextNodes := nextNodes ++ closure in
  match lookup with
  | None => Some []
  | Some _ => Some nextNodes
  end.

(** [func (head *node) DFAaccepts(input []string) bool]. *)
Fixpoint DFAaccepts (o : MapOrder) (fuel : nat) (h : heap) (head : node)
    (input : list string) : option bool :=
  match input with
  | [] => Some (Final head)
  | nextLiteral :: rest =>
      nextNode ← GetNext o fuel h head nextLiteral;
      match nextNode with
      | [] => Some false
      | first :: _ => DFAaccepts o fuel h first rest
      end
  end.

(** ** Accessors (lines 342-356) *)

(** [func (automata *automata) GetStart() node]. *)
Definition GetStart (a : automata) : node := beginning a.

(** [func (node *node) IsFinal() bool]. *)
Definition IsFinal (n : node) : bool := Final n.

(** [func (node *node) GetName() string]. *)
Definition GetName (n : node) : string := Name n.

(** [func (node *node) GetEdges() map[string][]node]. *)
Definition GetEdges (h : heap) (n : node) : gmap string (list node) := table_of h n.

(** ** Composite names (lines 277-286) *)

(** [sort.Strings] orders strings bytewise; the standard library routine is
    represented by a merge sort over the same order. *)
Definition sort_Strings (names : list string) : list string :=
  merge_sort String.le names.

(** [func compositNodeName(names []string) string]. *)
Definition compositNodeName (names : list string) : string :=
  foldl (λ newName s, newName +:+ s) "" (sort_Strings names).

(** ** Run-time failures and the mutable world *)

Inductive panic :=
  | NilMapWrite        (* assignment to entry in nil map *)
  | IndexOutOfRange    (* index out of range *)
  | NegativeWaitGroup  (* sync: negative WaitGroup counter *)
  | CloseOfClosed.     (* close of closed channel *)

Inductive result (A : Type) :=
  | Ok (a : A)
  | Panic (p : panic)
  | OutOfFuel.
Arguments Ok {A} a.
Arguments Panic {A} p.
Arguments OutOfFuel {A}.

(** Computations over a mutable state [St] that may panic. *)
Definition M (St A : Type) : Type := St → result (A * St).

#[global] Instance M_ret {St} : MRet (M St) := λ A a st, Ok (a, st).
#[global] Instance M_bind {St} : MBind (M St) := λ A B f m st,
  match m st with
  | Ok (a, st') => f a st'
  | Panic p => Panic p
  | OutOfFuel => OutOfFuel
  end.

Definition raise {St A} (p : panic) : M St A := λ _, Panic p.
Definition out_of_fuel {St A} : M St A := λ _, OutOfFuel.

(** A [for _, x := range l] loop over a slice. *)
Fixpoint for_each {St A} (l : list A) (body : A → M St ()) : M St () :=
  match l with
  | [] => mret ()
  | x :: rest => body x ≫= λ _, for_each rest body
  end.

(** The state the methods of [*automata] work on: the automaton behind the
    receiver pointer and the heap of transition tables. *)
Record world := mkWorld {
  w_auto : automata;
  w_heap : heap
}.

Definition get_heap : M world heap := λ w, Ok (w_heap w, w).

(** [make(map[string][]node)]. *)
Definition make_table : M world nat := λ w,
  Ok (length (w_heap w), mkWorld (w_auto w) (w_heap w ++ [∅])).

(** [v, ok := automata.nodes[k]]: reading a nil map yields the zero value. *)
Definition read_nodes (k : string) : M world (node * bool) := λ w,
  match nodes (w_auto w) with
  | Some m =>
      match m !! k with
      | Some v => Ok ((v, true), w)
      | None => Ok ((zero_node, false), w)
      end
  | None => Ok ((zero_node, false), w)
  end.

(** [automata.nodes[k] = v]: writing a nil map panics. *)
Definition write_nodes (k : string) (v : node) : M world () := λ w,
  match nodes (w_auto w) with
  | Some m => Ok ((), mkWorld (mkAutomata (beginning (w_auto w)) (Some (<[k := v]> m))) (w_heap w))
  | None => Panic NilMapWrite
  end.

(** [n.Transitions[k] = v]. *)
Definition write_table (n : node) (k : string) (v : list node) : M world () := λ w,
  match Transitions n with
  | Some a => Ok ((), mkWorld (w_auto w) (alter (<[k := v]>) a (w_heap w)))
  | None => Panic NilMapWrite
  end.

(** [automata.beginning = n]. *)
Definition set_beginning (n : node) : M world () := λ w,
  Ok ((), mkWorld (mkAutomata n (nodes (w_auto w))) (w_heap w)).

(** [new(automata)]: both fields zero, so [nodes] is the nil map. *)
Definition new_automata : automata := mkAutomata zero_node None.

(** ** Construction (lines 27-85 and 288-297) *)

(** [func (automata *automata) CreateNode(a string) *node].  The returned
    pointer addresses a node of its own; the node table receives a copy. *)
Definition CreateNode (a : string) : M world node :=
  t ← make_table;
  let newNode := mkNode a (Some t) false in
  write_nodes a newNode ≫= λ _,
  mret newNode.

(** [func (automata *automata) AddTransition(newTransition [3]string) *node].
    [end_] is the local variable [end] of the source. *)
Definition AddTransition (newTransition : string * string * string) : M world node :=
  let '(from, input, to) := newTransition in
  '(startNode, containsStart) ← read_nodes from;
  '(endNode, containsEnd) ← read_nodes to;
  startNode ← (if containsStart : bool then mret startNode else CreateNode from);
  endNode ← (if containsEnd : bool then mret endNode else CreateNode to);
  h ← get_heap;
  let end_ :=
    match table_of h startNode !! input with
    | None => [endNode]
    | Some end_ => end_ ++ [endNode]
    end in
  mret endNode.

(** Lines 43-48: the body of the loop over [finishMap].  [finishNode] is a
    local copy of the table entry. *)
Definition mark_final (entry : string * bool) : M world () :=
  let '(name, isFinish) := entry in
  if isFinish : bool then
    '(finishNode, _) ← read_nodes name;
    let finishNode := mkNode (Name finishNode) (Transitions finishNode) true in
    mret ()
  else mret ().

(** Lines 31-58 of [MakeAutomata]: everything after [new(automata)]. *)
Definition MakeAutomata_body (o : MapOrder) (transitions : list (string * string * string))
    (beginning : string) (finishStates : list string) : M world () :=
  for_each transitions (λ newTransition, AddTransition newTransition ≫= λ _, mret ()) ≫= λ _,
  let finishMap : gmap string bool :=
    foldl (λ finishMap f, <[f := true]> finishMap) ∅ finishStates in
  for_each (range_map o finishMap) mark_final ≫= λ _,
  '(beginningNode, ok) ← read_nodes beginning;
  beginningNode ← (if ok : bool then mret beginningNode else CreateNode beginning);
  set_beginning beginningNode.

(** [func MakeAutomata(transitions [][3]string, beginning string,
    finishStates []string) *automata], run in the heap [h]. *)
Definition MakeAutomata (o : MapOrder) (transitions : list (string * string * string))
    (beginning : string) (finishStates : list string) (h : heap) : result (automata * heap) :=
  match MakeAutomata_body o transitions beginning finishStates (mkWorld new_automata h) with
  | Ok (_, w) => Ok (w_auto w, w_heap w)
  | Panic p => Panic p
  | OutOfFuel => OutOfFuel
  end.

(** ** Determinization (lines 199-275) *)

(** A call of [EpsilonClosure] from a method that works on the world. *)
Definition closure_of (o : MapOrder) (cfuel : nat) (n : node) : M world (list node) := λ w,
  match EpsilonClosure o cfuel (w_heap w) n with
  | Some closure => Ok (closure, w)
  | None => OutOfFuel
  end.

(** Lines 254-259 of [makeCompositNode]: append the closure of every start
    node to [nodes]. *)
Fixpoint closures_of (o : MapOrder) (cfuel : nat) (startNodes nodes : list node)
    : M world (list node) :=
  match startNodes with
  | [] => mret nodes
  | nd :: rest =>
      closure ← closure_of o cfuel nd;
      closures_of o cfuel rest (nodes ++ closure)
  end.

(** [func (NFA *automata) makeCompositNode(startNodes []node)], which returns
    a node pointer, the merged nodes and an error.  The third component is
    [true] for the error "Node already exists". *)
Definition makeCompositNode (o : MapOrder) (cfuel : nat) (startNodes : list node)
    : M world (node * list node * bool) :=
  nodes ← closures_of o cfuel startNodes [];
  let newNameParts := foldl (λ parts nd, parts ++ [Name nd]) [] nodes in
  let newName := compositNodeName newNameParts in
  '(alreadyExistingNode, existsAlready) ← read_nodes newName;
  if existsAlready : bool then mret (alreadyExistingNode, nodes, true)
  else created ← CreateNode newName; mret (created, nodes, false).

(** Lines 225-231: the body of the loop over the entries of one merged node. *)
Definition copy_entry (returnNode mergedNode : node) (entry : string * list node)
    : M world () :=
  let '(input, endNode) := entry in
  h ← get_heap;
  (match table_of h returnNode !! input with
   | Some _ => mret ()
   | None => write_table returnNode input []
   end) ≫= λ _,
  h ← get_heap;
  write_table returnNode input (slice_of h mergedNode input ++ endNode).

(** Lines 221-233: copy the transitions of the merged nodes. *)
Definition copy_transitions (o : MapOrder) (returnNode : node) (mergedNodes : list node)
    : M world () :=
  for_each mergedNodes (λ mergedNode,
    h ← get_heap;
    for_each (range_map o (table_of h mergedNode)) (copy_entry returnNode mergedNode)).

(** Lines 236-241. *)
Definition merged_final (mergedNodes : list node) : bool :=
  foldl (λ final nd, if Final nd then true else final) false mergedNodes.

(** Line 246, the body of the last loop; [rec] is the recursive call. *)
Definition merge_entry (rec : node → M world node) (returnNode : node)
    (entry : string * list node) : M world () :=
  let '(input, newNode) := entry in
  match newNode with
  | [] => raise IndexOutOfRange
  | first :: _ =>
      merged ← rec first;
      write_table returnNode input [merged]
  end.

(** [func (DFA *automata) recursiveMerge(head node) node].  [fuel] bounds the
    depth of the recursion, [cfuel] that of the closure computations. *)
Fixpoint recursiveMerge (o : MapOrder) (cfuel fuel : nat) (head : node) : M world node :=
  match fuel with
  | O => out_of_fuel
  | S fuel' =>
      toBeMergedNodes ← closure_of o cfuel head;
      '(returnNode, mergedNodes, err) ← makeCompositNode o cfuel toBeMergedNodes;
      if err : bool then mret returnNode
      else
        copy_transitions o returnNode mergedNodes ≫= λ _,
        let returnNode :=
          mkNode (Name returnNode) (Transitions returnNode) (merged_final mergedNodes) in
        h ← get_heap;
        for_each (range_map o (table_of h returnNode))
          (merge_entry (recursiveMerge o cfuel fuel') returnNode) ≫= λ _,
        mret returnNode
  end.

(** [func (NFA *automata) ToDFA() *automata], run in the heap [h]. *)
Definition ToDFA (o : MapOrder) (cfuel fuel : nat) (NFA : automata) (h : heap)
    : result (automata * heap) :=
  match (start ← recursiveMerge o cfuel fuel (beginning NFA); set_beginning start)
          (mkWorld new_automata h) with
  | Ok (_, w) => Ok (w_auto w, w_heap w)
  | Panic p => Panic p
  | OutOfFuel => OutOfFuel
  end.

(** ** The concurrent search (lines 104-197)

    [Accepts] starts one goroutine per pair of a node and a remaining input.
    All goroutines share the channel [found], the wait group and the map
    [checked].  One invocation of [acceptsRoutine] runs without blocking, so
    it is a function on that shared state; goroutines it starts are queued
    in [spawned].  A panic in any goroutine aborts the whole program. *)
Record search := mkSearch {
  found_closed : bool;
  wg : Z;
  checked : gmap string (gmap (list string) bool);
  spawned : list (node * list string)
}.

Definition is_found_closed : M search bool := λ s, Ok (found_closed s, s).

(** [close(found)]. *)
Definition close_found : M search () := λ s,
  if found_closed s then Panic CloseOfClosed
  else Ok ((), mkSearch true (wg s) (checked s) (spawned s)).

(** [wg.Add(1)] and [wg.Done()]. *)
Definition wg_Add1 : M search () := λ s,
  Ok ((), mkSearch (found_closed s) (wg s + 1)%Z (checked s) (spawned s)).
Definition wg_Done : M search () := λ s,
  if (wg s - 1 <? 0)%Z then Panic NegativeWaitGroup
  else Ok ((), mkSearch (found_closed s) (wg s - 1)%Z (checked s) (spawned s)).

(** [checked[name][input]] read: a missing inner map reads as nil, and a
    nil map reads as [false]. *)
Definition checked_read (name : string) (input : list string) : M search bool := λ s,
  Ok (default false (checked s !! name ≫= λ inner, inner !! input), s).

(** [checked[name][input] = true]: the inner map [checked[name]] is read
    first and then assigned to. *)
Definition checked_write (name : string) (input : list string) : M search () := λ s,
  match checked s !! name with
  | Some inner =>
      Ok ((), mkSearch (found_closed s) (wg s)
                (<[name := <[input := true]> inner]> (checked s)) (spawned s))
  | None => Panic NilMapWrite
  end.

(** [go newNode.acceptsRoutine(input, found, checked, wg)]. *)
Definition go_acceptsRoutine (newNode : node) (input : list string) : M search () := λ s,
  Ok ((), mkSearch (found_closed s) (wg s) (checked s) (spawned s ++ [(newNode, input)])).

Section Search.
(** [acceptsRoutine] reads a field [head.EpsilonTransition] and a second,
    error result of [head.GetNext]; the source declares neither, so both
    are left open here. *)
Variable EpsilonTransition : heap → node → list node.
Variable GetNext_err : heap → node → string → bool.

Variable o : MapOrder.
Variable cfuel : nat.
Variable h : heap.

(** [func (head *node) acceptsRoutine(input []string, found chan bool,
    checked map[string]map[string]bool, wg *sync.WaitGroup)]. *)
Definition acceptsRoutine (head : node) (input : list string) : M search () :=
  closed ← is_found_closed;
  if closed : bool then mret ()
  else
    (match input with
     | [] => (if Final head then close_found else mret ()) ≫= λ _, wg_Done
     | _ => mret ()
     end) ≫= λ _,
    seen ← checked_read (Name head) input;
    if seen : bool then wg_Done
    else
      checked_write (Name head) input ≫= λ _,
      match input with
      | [] => raise IndexOutOfRange
      | nextRune :: rest =>
          match GetNext o cfuel h head nextRune with
          | None => out_of_fuel
          | Some nextNodes =>
              let err := GetNext_err h head nextRune in
              let eTransition := EpsilonTransition h head in
              if err && Nat.eqb (length eTransition) 0 then wg_Done
              else
                for_each nextNodes (λ newNode,
                  go_acceptsRoutine newNode rest ≫= λ _, wg_Add1) ≫= λ _,
                for_each (EpsilonTransition h head) (λ newNode,
                  go_acceptsRoutine newNode input ≫= λ _, wg_Add1) ≫= λ _,
                wg_Done
          end
      end.

(** The state [Accepts] sets up before it starts the first goroutine:
    [found] open, the wait group at one, [checked] an empty outer map. *)
Definition initial_search : search := mkSearch false 1 ∅ [].

Inductive verdict :=
  | Returns (b : bool)
  | Aborts (p : panic)
  | Deadlock
  | Unfinished.

(** One schedule of the goroutines: they run one after the other in the
    order they were started, and the coordinator of [Accepts] looks at its
    two channels last; it returns [true] when [found] is closed and [false]
    when the wait group has reached zero and [done] is closed. *)
Fixpoint schedule (steps : nat) (s : search) : verdict :=
  match steps with
  | O => Unfinished
  | S steps' =>
      match spawned s with
      | [] =>
          if found_closed s then Returns true
          else if (wg s =? 0)%Z then Returns false
          else Deadlock
      | (nd, input) :: rest =>
          match acceptsRoutine nd input
                  (mkSearch (found_closed s) (wg s) (checked s) rest) with
          | Ok (_, s') => schedule steps' s'
          | Panic p => Aborts p
          | OutOfFuel => Unfinished
          end
      end
  end.

(** [func (head *node) Accepts(input []string) bool]. *)
Definition Accepts (steps : nat) (head : node) (input : list string) : verdict :=
  schedule steps (mkSearch false 1 ∅ [(head, input)]).
End Search.

(** ** Auxiliary notions used by the statements *)

(** Every node value stored in some slice of some table of the heap, and the
    names of these nodes.  The closure of a node only ever visits such names,
    which bounds the depth of [epsilonRecursive]. *)
Definition heap_nodes (h : heap) : list node :=
  t ← h; ds ← (map_to_list t).*2; ds.

Definition heap_names (h : heap) : gset string :=
  list_to_set (Name <$> heap_nodes h).

(** Every entry of a visited map is filed under the name of its node. *)
Definition keyed_by_name (e : gmap string node) : Prop :=
  map_Forall (λ k v, Name v = k) e.

(** Every entry of every table holds at most one destination. *)
Definition at_most_one_destination (h : heap) : bool :=
  forallb (λ t : gmap string (list node),
    forallb (λ ds : list node, bool_decide (length ds ≤ 1)) (map_to_list t).*2) h.

(** Every entry of every table holds exactly one destination. *)
Definition one_destination_per_entry (h : heap) : bool :=
  forallb (λ t : gmap string (list node),
    forallb (λ ds : list node, bool_decide (length ds = 1)) (map_to_list t).*2) h.

(** No table has an entry for the epsilon string. *)
Definition no_epsilon_entry (h : heap) : bool :=
  forallb (λ t : gmap string (list node), bool_decide (t !! epsilon = None)) h.

(** The deterministic walk in the words of the specification: keep one
    current state, move to the unique destination of the current state for
    each symbol, reject when there is none, and at the end of the input
    accept exactly when the current state is final. *)
Fixpoint spec_fast_path (h : heap) (current : node) (input : list string) : bool :=
  match input with
  | [] => Final current
  | a :: rest =>
      match table_of h current !! a with
      | Some [next] => spec_fast_path h next rest
      | _ => false
      end
  end.

(** No name is empty and no name is a proper prefix of another one. *)
Definition prefix_free (names : list string) : bool :=
  forallb (λ x, negb (String.eqb x "") &&
                forallb (λ y, implb (String.prefix x y) (String.eqb x y)) names) names.

(** What construction keeps true of a world whose node table is allocated
    and that started from the heap [h0]: the heap has only grown by empty
    tables, and every state of the node table is non-final and owns one of
    the tables added. *)
Definition built_from (h0 : heap) (w : world) : Prop :=
  ∃ (m : gmap string node) (k : nat),
    nodes (w_auto w) = Some m
    ∧ w_heap w = h0 ++ replicate k ∅
    ∧ map_Forall (λ _ n, Final n = false
                         ∧ ∃ a, Transitions n = Some a ∧ length h0 ≤ a) m.

(** The names under which the node table of [w] holds a state. *)
Definition known_names (w : world) : gset string :=
  match nodes (w_auto w) with
  | Some m => dom m
  | None => ∅
  end.

(** The keys of the table at address [a]. *)
Definition keys_at (h : heap) (a : nat) : gset string :=
  dom (default ∅ (h !! a)).

(** [h'] keeps every table of [h] and may have more tables. *)
Definition extends (h h' : heap) : Prop :=
  length h ≤ length h' ∧ ∀ b, b < length h → h' !! b = h !! b.

(** Provided the heap of [w] has a table at address [a]: the heap of [w']
    keeps every table below [a] and every key of the table at [a], and may
    have more tables. *)
Definition grows_at (a : nat) (w w' : world) : Prop :=
  a < length (w_heap w) →
  length (w_heap w) ≤ length (w_heap w')
  ∧ (∀ b, b < a → w_heap w' !! b = w_heap w !! b)
  ∧ keys_at (w_heap w) a ⊆ keys_at (w_heap w') a.

(** ** Example automata *)

(** A state with an entry for ["a"] that holds no destination. *)
Definition stuck_state : node := mkNode "q" (Some 0) true.
Definition stuck_heap : heap := [ {[ "a" := [] ]} ].

(** Scenario A of the specification, "a b*":
    [S0 -a-> S1], [S1 -b-> S1], final [S1]. *)
Definition A1 : node := mkNode "S1" (Some 1) true.
Definition A0 : node := mkNode "S0" (Some 0) false.
Definition scenarioA_heap : heap := [ {[ "a" := [A1] ]} ; {[ "b" := [A1] ]} ].

(** Scenario B of the specification:
    [S0 -eps-> S1], [S0 -a-> S2], [S1 -b-> S3], finals [S2] and [S3]. *)
Definition B3 : node := mkNode "S3" (Some 3) true.
Definition B2 : node := mkNode "S2" (Some 2) true.
Definition B1 : node := mkNode "S1" (Some 1) false.
Definition B0 : node := mkNode "S0" (Some 0) false.
Definition scenarioB_heap : heap :=
  [ {[ epsilon := [B1]; "a" := [B2] ]} ; {[ "b" := [B3] ]} ; ∅ ; ∅ ].

(** An automaton whose node table has been allocated and is still empty. *)
Definition empty_automata : automata := mkAutomata zero_node (Some ∅).

(** ** Notions used by the further properties *)

(** One silent step: [d] is a destination of the epsilon entry of [n]. *)
Definition epsilon_edge (h : heap) (n d : node) : Prop :=
  d ∈ slice_of h n epsilon.

(** Every node of a visited map can be reached from [root] by silent steps. *)
Definition reached_from (h : heap) (root : node) (e : gmap string node) : Prop :=
  map_Forall (λ _ v, rtc (epsilon_edge h) root v) e.

(** The entries that [e'] has and [e] has not are closed under silent
    steps: the name of every epsilon destination of such an entry is a key
    of [e']. *)
Definition new_entries_closed (h : heap) (e e' : gmap string node) : Prop :=
  ∀ k v, e' !! k = Some v → e !! k = None →
         ∀ d, epsilon_edge h v d → Name d ∈ dom e'.

(** Every state of a node table is non-final and stored under its name. *)
Definition stored_plain (m : gmap string node) : Prop :=
  map_Forall (λ k n, Final n = false ∧ Name n = k) m.

(** The node table of [w'] keeps every entry of the node table of [w], and
    is plain if that one was. *)
Definition table_grows (w w' : world) : Prop :=
  ∀ m, nodes (w_auto w) = Some m →
       ∃ m', nodes (w_auto w') = Some m' ∧ m ⊆ m' ∧ (stored_plain m → stored_plain m').

(** What the copying loop keeps true of the table of [returnNode], which
    lies at address [a], relative to the world [w0] it started in: the other
    tables are as in [w0], and every entry of the table is one it had in
    [w0] or the destination list of one merged node, twice over. *)
Definition copied_entries (w0 : world) (returnNode : node) (a : nat)
    (mergedNodes : list node) (w : world) : Prop :=
  a < length (w_heap w)
  ∧ (∀ b, b ≠ a → w_heap w !! b = w_heap w0 !! b)
  ∧ ∀ key v, table_of (w_heap w) returnNode !! key = Some v →
      table_of (w_heap w0) returnNode !! key = Some v
      ∨ ∃ mn ds, mn ∈ mergedNodes
                 ∧ table_of (w_heap w0) mn !! key = Some ds ∧ v = ds ++ ds.


(** A world in which the composite state of [A1] is stored already. *)
Definition revisit_world : world :=
  mkWorld (mkAutomata zero_node (Some {[ "S1" := mkNode "S1" (Some 1) false ]}))
          scenarioA_heap.

(** * Properties *)

(** ** Epsilon closure *)

Lemma heap_names_spec (h : heap) (a : nat) (t : gmap string (list node))
    (k : string) (ds : list node) (d : node) :
  h !! a = Some t → t !! k = Some ds → d ∈ ds → Name d ∈ heap_names h.
Proof.
  intros Ha Hk Hd. unfold heap_names, heap_nodes.
  apply elem_of_list_to_set, list_elem_of_fmap. exists d. split; [done|].
  apply list_elem_of_bind. exists t. split; [|by eapply list_elem_of_lookup_2].
  apply list_elem_of_bind. exists ds. split; [done|].
  apply list_elem_of_fmap. exists (k, ds). split; [done|].
  by apply elem_of_map_to_list.
Qed.

Lemma slice_of_names (h : heap) (n : node) (a : string) (d : node) :
  d ∈ slice_of h n a → Name d ∈ heap_names h.
Proof.
  unfold slice_of, table_of. destruct (Transitions n) as [l|]; simpl.
  - destruct (h !! l) as [t|] eqn:Hl; simpl.
    + destruct (t !! a) as [ds|] eqn:Ha; simpl.
      * intros Hd. by eapply heap_names_spec.
      * by intros ?%elem_of_nil.
    + rewrite lookup_empty. by intros ?%elem_of_nil.
  - rewrite lookup_empty. by intros ?%elem_of_nil.
Qed.

Section Closure.
Variable h : heap.

(** One more visited name leaves strictly fewer names to visit. *)
Lemma unvisited_decreases (e : gmap string node) (n : node) :
  Name n ∈ heap_names h → e !! Name n = None →
  size (heap_names h ∖ dom (<[Name n := n]> e)) < size (heap_names h ∖ dom e).
Proof.
  intros Hin Hnone. apply subset_size. rewrite dom_insert_L.
  apply not_elem_of_dom in Hnone. set_solver.
Qed.

Lemma unvisited_mono (e e' : gmap string node) :
  e ⊆ e' → size (heap_names h ∖ dom e') ≤ size (heap_names h ∖ dom e).
Proof.
  intros Hsub. apply subseteq_size. apply subseteq_dom in Hsub. set_solver.
Qed.

Lemma visit_each_total (rec : node → gmap string node → option (gmap string node))
    (budget : nat) :
  (∀ n e, size (heap_names h ∖ dom (<[Name n := n]> e)) < budget →
          e !! Name n = None →
          ∃ e', rec n e = Some e' ∧ <[Name n := n]> e ⊆ e') →
  ∀ l e, (∀ d, d ∈ l → Name d ∈ heap_names h) →
         size (heap_names h ∖ dom e) < S budget →
         ∃ e', visit_each rec l e = Some e' ∧ e ⊆ e'.
Proof.
  intros Hrec l. induction l as [|nd rest IH]; intros e Hl Hsize; simpl.
  - by exists e.
  - destruct (e !! Name nd) as [v|] eqn:Hnd.
    + apply IH; [|done]. intros d Hd. apply Hl. by right.
    + destruct (Hrec nd e) as (e1 & -> & Hsub1); [|done|].
      { pose proof (unvisited_decreases e nd (Hl nd ltac:(left)) Hnd). lia. }
      assert (e ⊆ e1) as Hsub.
      { etrans; [|exact Hsub1]. by apply insert_subseteq. }
      destruct (IH e1) as (e2 & -> & Hsub2).
      * intros d Hd. apply Hl. by right.
      * pose proof (unvisited_mono e e1 Hsub). lia.
      * exists e2. split; [done|]. by etrans.
Qed.

(** With a budget above the number of names left to visit the traversal
    returns, and it keeps every entry it has been given. *)
Lemma epsilonRecursive_total (fuel : nat) :
  ∀ n e, size (heap_names h ∖ dom (<[Name n := n]> e)) < fuel →
         e !! Name n = None →
         ∃ e', epsilonRecursive fuel h n e = Some e' ∧ <[Name n := n]> e ⊆ e'.
Proof.
  induction fuel as [|fuel IH]; intros n e Hsize Hnone; [lia|].
  simpl. apply (visit_each_total _ fuel IH); [|done].
  intros d Hd. by eapply slice_of_names.
Qed.

Lemma visit_each_keyed (rec : node → gmap string node → option (gmap string node)) :
  (∀ n e e', rec n e = Some e' → keyed_by_name e → keyed_by_name e') →
  ∀ l e e', visit_each rec l e = Some e' → keyed_by_name e → keyed_by_name e'.
Proof.
  intros Hrec l. induction l as [|nd rest IH]; intros e e' Hrun He; simpl in Hrun.
  - by simplify_eq.
  - destruct (e !! Name nd); [by eapply IH|].
    destruct (rec nd e) as [e1|] eqn:Hcall; [|done].
    eapply IH; [done|]. by eapply Hrec.
Qed.

Lemma epsilonRecursive_keyed (fuel : nat) :
  ∀ n e e', epsilonRecursive fuel h n e = Some e' → keyed_by_name e → keyed_by_name e'.
Proof.
  induction fuel as [|fuel IH]; intros n e e' Hrun He; [done|].
  simpl in Hrun. eapply visit_each_keyed; [exact IH|exact Hrun|].
  by apply map_Forall_insert_2.
Qed.

(** The closure as a whole: it is computed, it holds the start node, and
    its nodes have pairwise different names. *)
Lemma EpsilonClosure_returns (o : MapOrder) (fuel : nat) (n : node) :
  size (heap_names h) < fuel →
  ∃ closure, EpsilonClosure o fuel h n = Some closure
             ∧ n ∈ closure ∧ NoDup (Name <$> closure).
Proof.
  intros Hfuel. unfold EpsilonClosure.
  destruct (epsilonRecursive_total fuel n ∅) as (e & Hrun & Hsub).
  { assert (size (heap_names h ∖ dom (<[Name n := n]> (∅ : gmap string node)))
            ≤ size (heap_names h)) by (apply subseteq_size; set_solver).
    lia. }
  { apply lookup_empty. }
  rewrite Hrun. simpl. eexists. split; [done|].
  assert (keyed_by_name e) as Hkeys.
  { eapply epsilonRecursive_keyed; [exact Hrun|]. apply map_Forall_empty. }
  unfold range_map. split.
  - apply list_elem_of_fmap. exists (Name n, n). split; [done|].
    rewrite (reorder_perm o). apply elem_of_map_to_list.
    eapply lookup_weaken; [|exact Hsub]. apply lookup_insert_eq.
  - assert (Name <$> (reorder o _ (map_to_list e)).*2 = (reorder o _ (map_to_list e)).*1) as ->.
    { rewrite <- list_fmap_compose. apply list_fmap_ext.
      intros i [k v] Hi. simpl. apply (Hkeys k v).
      apply elem_of_map_to_list. rewrite <- (reorder_perm o).
      by eapply list_elem_of_lookup_2. }
    rewrite (reorder_perm o). apply NoDup_fst_map_to_list.
Qed.
End Closure.

(** C9: for every state [s] of any heap of tables, the epsilon closure of
    [s] is computed once the budget exceeds the number of names in the heap,
    it contains [s] itself, and it holds no state twice: the states in it
    even have pairwise different names. *)
Theorem EpsilonClosure_reflexive_NoDup (o : MapOrder) (fuel : nat) (h : heap) (s : node) :
  size (heap_names h) < fuel →
  ∃ closure, EpsilonClosure o fuel h s = Some closure
             ∧ s ∈ closure ∧ NoDup closure ∧ NoDup (Name <$> closure).
Proof.
  intros Hfuel.
  destruct (EpsilonClosure_returns h o fuel s Hfuel) as (closure & Hrun & Hin & Hnd).
  exists closure. repeat split; [done..| |done]. by eapply NoDup_fmap_1.
Qed.

Lemma EpsilonClosure_reflexive_NoDup_witness :
  size (heap_names scenarioB_heap) < 5 ∧
  ∃ closure, EpsilonClosure rev_order 5 scenarioB_heap B0 = Some closure
             ∧ B0 ∈ closure ∧ NoDup closure ∧ NoDup (Name <$> closure).
Proof.
  split; [vm_compute; lia|].
  apply (EpsilonClosure_reflexive_NoDup rev_order 5 scenarioB_heap B0).
  vm_compute; lia.
Defined.

(** ** GetNext and the deterministic walk *)

Lemma GetNext_eq (o : MapOrder) (fuel : nat) (h : heap) (s : node) (a : string) :
  size (heap_names h) < fuel →
  ∃ closure, EpsilonClosure o fuel h s = Some closure ∧ s ∈ closure ∧
    GetNext o fuel h s a =
      Some (match table_of h s !! a with
            | None => []
            | Some ds => ds ++ closure
            end).
Proof.
  intros Hfuel.
  destruct (EpsilonClosure_returns h o fuel s Hfuel) as (closure & Hrun & Hin & _).
  exists closure. split; [done|]. split; [done|].
  unfold GetNext. rewrite Hrun. simpl. by destruct (table_of h s !! a).
Qed.

(** C10: [GetNext s a] returns the empty list whenever the table of [s] has
    no entry for [a], whatever epsilon transitions [s] has; and whenever an
    entry exists it returns the destinations of that entry followed by the
    epsilon closure of [s] itself, so the result contains [s]. *)
Theorem GetNext_no_entry_or_closure_of_self
    (o : MapOrder) (fuel : nat) (h : heap) (s : node) (a : string) :
  size (heap_names h) < fuel →
  (table_of h s !! a = None → GetNext o fuel h s a = Some [])
  ∧ (∀ ds, table_of h s !! a = Some ds →
       ∃ closure, EpsilonClosure o fuel h s = Some closure
                  ∧ GetNext o fuel h s a = Some (ds ++ closure)
                  ∧ s ∈ ds ++ closure).
Proof.
  intros Hfuel.
  destruct (GetNext_eq o fuel h s a Hfuel) as (closure & Hrun & Hin & Hnext).
  split.
  - intros Hnone. by rewrite Hnext, Hnone.
  - intros ds Hsome. exists closure. rewrite Hnext, Hsome.
    repeat split; [done|]. apply elem_of_app. by right.
Qed.

Lemma GetNext_no_entry_or_closure_of_self_witness :
  size (heap_names scenarioB_heap) < 5 ∧
  (table_of scenarioB_heap B0 !! "a" = None →
     GetNext id_order 5 scenarioB_heap B0 "a" = Some [])
  ∧ (∀ ds, table_of scenarioB_heap B0 !! "a" = Some ds →
       ∃ closure, EpsilonClosure id_order 5 scenarioB_heap B0 = Some closure
                  ∧ GetNext id_order 5 scenarioB_heap B0 "a" = Some (ds ++ closure)
                  ∧ B0 ∈ ds ++ closure).
Proof.
  split; [vm_compute; lia|].
  apply (GetNext_no_entry_or_closure_of_self id_order 5 scenarioB_heap B0 "a").
  vm_compute; lia.
Defined.

(** In scenario B the start state has an epsilon transition to a state with
    a ["b"] entry, and still has no successor for ["b"]; for ["a"] the
    successors are the destination [S2] and then the closure of [S0], here
    in one of the orders the map iteration may take. *)
Example GetNext_scenarioB :
  GetNext id_order 5 scenarioB_heap B0 "b" = Some []
  ∧ GetNext id_order 5 scenarioB_heap B0 "a" = Some [B2; B1; B0].
Proof. split; vm_compute; reflexivity. Qed.

Lemma one_destination_lookup (h : heap) (n : node) (a : string) (ds : list node) :
  one_destination_per_entry h = true →
  table_of h n !! a = Some ds → ∃ d, ds = [d].
Proof.
  unfold one_destination_per_entry, table_of. intros Hall Hds.
  destruct (Transitions n) as [l|]; [|by rewrite lookup_empty in Hds].
  destruct (h !! l) as [t|] eqn:Hl; simpl in Hds; [|by rewrite lookup_empty in Hds].
  rewrite forallb_forall in Hall.
  specialize (Hall t). rewrite <- list_elem_of_In in Hall.
  specialize (Hall (list_elem_of_lookup_2 _ _ _ Hl)).
  rewrite forallb_forall in Hall.
  specialize (Hall ds). rewrite <- list_elem_of_In in Hall.
  assert (ds ∈ (map_to_list t).*2) as Hin.
  { apply list_elem_of_fmap. exists (a, ds). split; [done|]. by apply elem_of_map_to_list. }
  apply Hall, bool_decide_eq_true in Hin.
  destruct ds as [|d [|]]; simplify_eq/=. by exists d.
Qed.

(** C8 (amended): when every entry present in the tables holds exactly one
    destination, [DFAaccepts] is the deterministic walk of the
    specification: one current state per symbol, [false] as soon as the
    current state has no entry for the symbol, and at the end of the input
    [true] exactly when the current state is final. *)
Theorem DFAaccepts_fast_path
    (o : MapOrder) (fuel : nat) (h : heap) (head : node) (input : list string) :
  one_destination_per_entry h = true →
  size (heap_names h) < fuel →
  DFAaccepts o fuel h head input = Some (spec_fast_path h head input).
Proof.
  intros Hone Hfuel. revert head.
  induction input as [|a rest IH]; intros head; simpl; [done|].
  destruct (GetNext_eq o fuel h head a Hfuel) as (closure & _ & _ & ->). simpl.
  destruct (table_of h head !! a) as [ds|] eqn:Hds; [|done].
  destruct (one_destination_lookup h head a ds Hone Hds) as [d ->]. simpl.
  apply IH.
Qed.

Lemma DFAaccepts_fast_path_witness :
  one_destination_per_entry scenarioA_heap = true ∧
  size (heap_names scenarioA_heap) < 2 ∧
  DFAaccepts id_order 2 scenarioA_heap A0 ["a"; "b"; "b"]
    = Some (spec_fast_path scenarioA_heap A0 ["a"; "b"; "b"]).
Proof.
  split; [reflexivity|]. split; [vm_compute; lia|].
  apply (DFAaccepts_fast_path id_order 2 scenarioA_heap A0 ["a"; "b"; "b"]).
  - reflexivity.
  - vm_compute; lia.
Defined.

(** Scenario A on the fast path. *)
Example DFAaccepts_scenarioA :
  DFAaccepts id_order 2 scenarioA_heap A0 ["a"] = Some true
  ∧ DFAaccepts id_order 2 scenarioA_heap A0 ["a"; "b"; "b"] = Some true
  ∧ DFAaccepts id_order 2 scenarioA_heap A0 [] = Some false
  ∧ DFAaccepts id_order 2 scenarioA_heap A0 ["b"] = Some false.
Proof. repeat split; vm_compute; reflexivity. Qed.

(** C8 as stated fails: [stuck_state] lives in a heap without epsilon
    entries and with at most one destination per entry, its entry for ["a"]
    holds no destination, and [DFAaccepts] does not reject ["a"] but
    continues from [stuck_state] itself and accepts. *)
Lemma DFAaccepts_empty_entry_not_rejected :
  at_most_one_destination stuck_heap = true
  ∧ no_epsilon_entry stuck_heap = true
  ∧ size (heap_names stuck_heap) < 1
  ∧ table_of stuck_heap stuck_state !! "a" = Some []
  ∧ spec_fast_path stuck_heap stuck_state ["a"] = false
  ∧ DFAaccepts id_order 1 stuck_heap stuck_state ["a"] = Some true.
Proof. repeat split; vm_compute; solve [reflexivity | lia]. Qed.

(** ** Composite names *)

Lemma append_cons (c : Ascii.ascii) (x y : string) :
  String c x +:+ y = String c (x +:+ y).
Proof. reflexivity. Qed.

Lemma append_assoc (x y z : string) : (x +:+ y) +:+ z = x +:+ (y +:+ z).
Proof. induction x as [|c x IH]; [done|]. rewrite !append_cons. by f_equal. Qed.

Lemma append_empty_r (x : string) : x +:+ "" = x.
Proof. induction x as [|c x IH]; [done|]. rewrite append_cons. by f_equal. Qed.

(** The accumulating loop of [compositNodeName] is plain concatenation. *)
Lemma name_loop_concat (init : string) (l : list string) :
  foldl (λ newName s, newName +:+ s) init l = init +:+ foldr String.app "" l.
Proof.
  revert init. induction l as [|s l IH]; intros init; cbn [foldl foldr].
  - by rewrite append_empty_r.
  - by rewrite IH, append_assoc.
Qed.

Lemma compositNodeName_concat (names : list string) :
  compositNodeName names = foldr String.app "" (sort_Strings names).
Proof. unfold compositNodeName. by rewrite name_loop_concat. Qed.

(** Sorting forgets the order in which the names were given. *)
Lemma sort_Strings_Permutation (l1 l2 : list string) :
  l1 ≡ₚ l2 ↔ sort_Strings l1 = sort_Strings l2.
Proof.
  unfold sort_Strings. split.
  - intros Hperm. apply (StronglySorted_unique String.le).
    + apply StronglySorted_merge_sort; apply _.
    + apply StronglySorted_merge_sort; apply _.
    + by rewrite !merge_sort_Permutation.
  - intros Heq.
    rewrite <- (merge_sort_Permutation String.le l1), Heq.
    apply merge_sort_Permutation.
Qed.

Lemma compositNodeName_order_independent (l1 l2 : list string) :
  l1 ≡ₚ l2 → compositNodeName l1 = compositNodeName l2.
Proof.
  intros Hperm. unfold compositNodeName.
  by rewrite (proj1 (sort_Strings_Permutation l1 l2) Hperm).
Qed.

Lemma append_prefix_cases (x y r1 r2 : string) :
  x +:+ r1 = y +:+ r2 → String.prefix x y = true ∨ String.prefix y x = true.
Proof.
  revert y. induction x as [|c x IH]; intros y Heq.
  - left. by destruct y.
  - destruct y as [|d y]; [by right|].
    rewrite !append_cons in Heq. injection Heq as -> Heq. simpl.
    destruct (Ascii.ascii_dec d d); [|done]. by apply IH.
Qed.

Lemma prefix_free_elem (names : list string) (x y : string) :
  prefix_free names = true → x ∈ names → y ∈ names →
  x ≠ "" ∧ (String.prefix x y = true → x = y).
Proof.
  unfold prefix_free. rewrite forallb_forall. intros Hall Hx Hy.
  specialize (Hall x). rewrite <- list_elem_of_In in Hall. specialize (Hall Hx).
  apply andb_true_iff in Hall as [Hne Hpre]. split.
  - intros ->. done.
  - rewrite forallb_forall in Hpre.
    specialize (Hpre y). rewrite <- list_elem_of_In in Hpre. specialize (Hpre Hy).
    intros Hp. rewrite Hp in Hpre. simpl in Hpre. by apply String.eqb_eq.
Qed.

(** Concatenation can be undone when the names form a prefix code. *)
Lemma concat_prefix_free_inj (names : list string) :
  prefix_free names = true →
  ∀ l1 l2, l1 ⊆ names → l2 ⊆ names →
           foldr String.app "" l1 = foldr String.app "" l2 → l1 = l2.
Proof.
  intros Hfree l1. induction l1 as [|x l1 IH]; intros [|y l2] H1 H2 Heq; simpl in Heq.
  - done.
  - assert (y ∈ names) as Hy by (apply H2; left).
    destruct (prefix_free_elem names y y Hfree Hy Hy) as [Hne _].
    destruct y; [done|]. by rewrite append_cons in Heq.
  - assert (x ∈ names) as Hx by (apply H1; left).
    destruct (prefix_free_elem names x x Hfree Hx Hx) as [Hne _].
    destruct x; [done|]. by rewrite append_cons in Heq.
  - assert (x ∈ names) as Hx by (apply H1; left).
    assert (y ∈ names) as Hy by (apply H2; left).
    assert (x = y) as ->.
    { destruct (append_prefix_cases _ _ _ _ Heq) as [Hp|Hp].
      - by apply (prefix_free_elem names x y Hfree Hx Hy).
      - symmetry. by apply (prefix_free_elem names y x Hfree Hy Hx). }
    apply (inj (String.app y)) in Heq. f_equal. apply IH; [| |done].
    + intros z Hz. apply H1. by right.
    + intros z Hz. apply H2. by right.
Qed.

(** C6 (amended): the composite key is the concatenation of the sorted
    names.  It does not depend on the order of the names, and for names
    taken from a prefix code (no name empty, none a proper prefix of
    another) equal keys come from the same names up to order. *)
Theorem compositNodeName_injective_on_prefix_code (l1 l2 : list string) :
  prefix_free (l1 ++ l2) = true →
  compositNodeName l1 = compositNodeName l2 ↔ l1 ≡ₚ l2.
Proof.
  intros Hfree. split; [|apply compositNodeName_order_independent].
  rewrite !compositNodeName_concat. intros Heq.
  apply sort_Strings_Permutation.
  apply (concat_prefix_free_inj (l1 ++ l2) Hfree); [| |done].
  - intros z Hz. unfold sort_Strings in Hz.
    rewrite merge_sort_Permutation in Hz. apply elem_of_app. by left.
  - intros z Hz. unfold sort_Strings in Hz.
    rewrite merge_sort_Permutation in Hz. apply elem_of_app. by right.
Qed.

Lemma compositNodeName_injective_on_prefix_code_witness :
  prefix_free (["S1"; "S0"] ++ ["S0"; "S1"]) = true ∧
  (compositNodeName ["S1"; "S0"] = compositNodeName ["S0"; "S1"]
   ↔ ["S1"; "S0"] ≡ₚ ["S0"; "S1"]).
Proof.
  split; [reflexivity|].
  apply (compositNodeName_injective_on_prefix_code ["S1"; "S0"] ["S0"; "S1"]).
  reflexivity.
Defined.

(** C6 as stated fails: the sets {a, b} and {ab} are different and receive
    the same composite key. *)
Lemma compositNodeName_collision :
  (list_to_set ["a"; "b"] : gset string) ≠ list_to_set ["ab"]
  ∧ compositNodeName ["a"; "b"] = compositNodeName ["ab"].
Proof.
  split; [|reflexivity].
  intros Heq. assert ("a" ∈ (list_to_set ["ab"] : gset string)) as Hin.
  { rewrite <- Heq. set_solver. }
  set_solver.
Qed.

(** ** Construction *)

Lemma bind_Ok {St A B : Type} (m : M St A) (f : A → M St B) (st st' : St) (a : A) :
  m st = Ok (a, st') → (m ≫= f) st = f a st'.
Proof. intros Hm. unfold mbind, M_bind. by rewrite Hm. Qed.

Lemma mark_final_noop (l : list (string * bool)) (w : world) :
  for_each l mark_final w = Ok ((), w).
Proof.
  induction l as [|[name isFinish] l IH]; [done|].
  cbn. unfold mbind, M_bind. destruct isFinish; cbn.
  - unfold read_nodes. destruct (nodes (w_auto w)) as [m|]; [destruct (m !! name)|]; exact IH.
  - exact IH.
Qed.

Lemma MakeAutomata_body_nil_table (o : MapOrder)
    (transitions : list (string * string * string))
    (start_name : string) (finishStates : list string) (h : heap) :
  MakeAutomata_body o transitions start_name finishStates (mkWorld new_automata h)
    = Panic NilMapWrite.
Proof.
  unfold MakeAutomata_body.
  destruct transitions as [|[[from input] to] rest].
  - unfold mbind, M_bind. cbn [for_each mret M_ret]. rewrite mark_final_noop. reflexivity.
  - reflexivity.
Qed.

(** C7: construction never completes: [new(automata)] leaves the node table
    nil, no statement allocates it, and the first [CreateNode] assigns into
    it.  Every call of [MakeAutomata] panics, whatever its arguments. *)
Theorem MakeAutomata_panics (o : MapOrder) (transitions : list (string * string * string))
    (start_name : string) (finishStates : list string) (h : heap) :
  MakeAutomata o transitions start_name finishStates h = Panic NilMapWrite.
Proof.
  unfold MakeAutomata.
  pose proof (MakeAutomata_body_nil_table o transitions start_name finishStates h) as Hbody.
  by rewrite Hbody.
Qed.

Lemma read_nodes_built (h0 : heap) (key : string) (w : world) :
  built_from h0 w →
  ∃ n b, read_nodes key w = Ok ((n, b), w) ∧ Final n = false
         ∧ (b = true → key ∈ known_names w).
Proof.
  intros (m & k & Hm & _ & Hall). unfold read_nodes, known_names. rewrite Hm.
  destruct (m !! key) as [n|] eqn:Hkey.
  - exists n, true. split; [done|]. split; [by destruct (Hall key n Hkey)|].
    intros _. by eapply elem_of_dom_2.
  - by exists zero_node, false.
Qed.

Lemma CreateNode_built (h0 : heap) (a : string) (w : world) :
  built_from h0 w →
  ∃ n w', CreateNode a w = Ok (n, w') ∧ built_from h0 w' ∧ Final n = false
          ∧ known_names w' = {[a]} ∪ known_names w.
Proof.
  intros (m & k & Hm & Hheap & Hall).
  unfold CreateNode, make_table, write_nodes, mbind, M_bind, known_names. cbn. rewrite Hm.
  eexists _, _. split; [done|]. cbn. split; [|split; [done|apply dom_insert_L]].
  exists (<[a := mkNode a (Some (length (w_heap w))) false]> m), (S k). cbn.
  split; [done|]. split.
  - rewrite Hheap, <- (assoc_L (++)). f_equal.
    symmetry. apply (replicate_S_end k).
  - apply map_Forall_insert_2; [|done]. cbn. split; [done|].
    eexists. split; [done|]. rewrite Hheap, length_app. lia.
Qed.

(** A node that was found or else created is known afterwards. *)
Lemma read_or_create_built (h0 : heap) (key : string) (n : node) (b : bool) (w0 w : world) :
  built_from h0 w →
  known_names w0 ⊆ known_names w →
  (b = true → key ∈ known_names w0) →
  Final n = false →
  ∃ s w', (if b then mret n else CreateNode key) w = Ok (s, w')
          ∧ built_from h0 w' ∧ Final s = false
          ∧ known_names w ⊆ known_names w' ∧ key ∈ known_names w'.
Proof.
  intros Hw Hsub Hb Hn. destruct b.
  - exists n, w. repeat split; [done..|]. by apply Hsub, Hb.
  - destruct (CreateNode_built h0 key w Hw) as (s & w' & Hs & Hw' & Hfin & Hdom).
    exists s, w'. repeat split; [done..| |]; set_solver.
Qed.

Lemma AddTransition_built (h0 : heap) (t : string * string * string) (w : world) :
  built_from h0 w →
  ∃ n w', AddTransition t w = Ok (n, w') ∧ built_from h0 w'
          ∧ known_names w ⊆ known_names w'
          ∧ t.1.1 ∈ known_names w' ∧ t.2 ∈ known_names w'.
Proof.
  intros Hw. destruct t as [[from input] to]. unfold AddTransition.
  destruct (read_nodes_built h0 from w Hw) as (n1 & b1 & Hr1 & Hf1 & Hk1).
  destruct (read_nodes_built h0 to w Hw) as (n2 & b2 & Hr2 & Hf2 & Hk2).
  rewrite (bind_Ok _ _ _ _ _ Hr1). cbn beta iota.
  rewrite (bind_Ok _ _ _ _ _ Hr2). cbn beta iota.
  destruct (read_or_create_built h0 from n1 b1 w w Hw ltac:(done) Hk1 Hf1)
    as (s1 & w1 & Hs1 & Hw1 & _ & Hsub1 & Hin1).
  rewrite (bind_Ok _ _ _ _ _ Hs1).
  destruct (read_or_create_built h0 to n2 b2 w w1 Hw1 Hsub1 Hk2 Hf2)
    as (s2 & w2 & Hs2 & Hw2 & _ & Hsub2 & Hin2).
  rewrite (bind_Ok _ _ _ _ _ Hs2).
  exists s2, w2. cbn. repeat split; [done..| | |done]; set_solver.
Qed.

Lemma transitions_loop_built (h0 : heap) (transitions : list (string * string * string))
    (w : world) :
  built_from h0 w →
  ∃ w', for_each transitions (λ newTransition, AddTransition newTransition ≫= λ _, mret ()) w
          = Ok ((), w')
        ∧ built_from h0 w'
        ∧ known_names w ⊆ known_names w'
        ∧ ∀ t, t ∈ transitions → t.1.1 ∈ known_names w' ∧ t.2 ∈ known_names w'.
Proof.
  revert w. induction transitions as [|t rest IH]; intros w Hw.
  - exists w. split; [done|]. split; [done|]. split; [done|].
    by intros ? ?%elem_of_nil.
  - destruct (AddTransition_built h0 t w Hw) as (n & w1 & Hadd & Hw1 & Hsub1 & Hfrom & Hto).
    destruct (IH w1 Hw1) as (w2 & Hrest & Hw2 & Hsub2 & Hall).
    exists w2. split.
    { cbn [for_each]. erewrite bind_Ok; [exact Hrest|]. by erewrite bind_Ok. }
    split; [done|]. split; [set_solver|].
    intros t' [->|Ht']%elem_of_cons; [|by apply Hall]. set_solver.
Qed.

(** With the node table allocated the whole body of [MakeAutomata] runs
    through; what it leaves behind still satisfies [built_from], and every
    name of a triple is the name of a state. *)
Lemma MakeAutomata_body_built (o : MapOrder) (transitions : list (string * string * string))
    (start_name : string) (finishStates : list string) (h0 : heap) (w : world) :
  built_from h0 w →
  ∃ w', MakeAutomata_body o transitions start_name finishStates w = Ok ((), w')
        ∧ built_from h0 w'
        ∧ Final (beginning (w_auto w')) = false
        ∧ ∀ t, t ∈ transitions → t.1.1 ∈ known_names w' ∧ t.2 ∈ known_names w'.
Proof.
  intros Hw. unfold MakeAutomata_body.
  destruct (transitions_loop_built h0 transitions w Hw) as (w1 & Hloop & Hw1 & _ & Hall).
  rewrite (bind_Ok _ _ _ _ _ Hloop). cbn zeta.
  rewrite (bind_Ok _ _ _ _ _ (mark_final_noop _ w1)).
  destruct (read_nodes_built h0 start_name w1 Hw1) as (n & b & Hr & Hfin & Hk).
  rewrite (bind_Ok _ _ _ _ _ Hr). cbn beta iota.
  destruct (read_or_create_built h0 start_name n b w1 w1 Hw1 ltac:(done) Hk Hfin)
    as (s & w2 & Hs & Hw2 & Hfs & Hsub & _).
  rewrite (bind_Ok _ _ _ _ _ Hs).
  eexists. split; [done|]. split; [|split; [done|]].
  - destruct Hw2 as (m & k & Hm & Hheap & Hall2). by exists m, k.
  - intros t Ht. destruct (Hall t Ht). unfold known_names in *. cbn. set_solver.
Qed.

Lemma built_from_empty (h : heap) : built_from h (mkWorld empty_automata h).
Proof.
  exists ∅, 0. cbn. split; [done|]. split; [by rewrite (right_id_L [] (++))|].
  apply map_Forall_empty.
Qed.

Lemma added_table_empty (h0 : heap) (k : nat) (n : node) (a : nat) (input : string) :
  Transitions n = Some a → length h0 ≤ a →
  table_of (h0 ++ replicate k ∅) n !! input = None.
Proof.
  intros Ha Hle. unfold table_of. rewrite Ha.
  destruct ((h0 ++ replicate k ∅) !! a) as [t|] eqn:Hl; cbn; [|by rewrite lookup_empty].
  rewrite lookup_app_r in Hl by done.
  apply lookup_replicate in Hl as [-> _]. by rewrite lookup_empty.
Qed.

(** C1: no triple is recorded.  [MakeAutomata] panics on the nil node
    table; and [AddTransition] builds the extended destination slice in the
    local variable [end] and never stores it in the table of the start
    node: even when the node table has been allocated, so that the body of
    [MakeAutomata] runs through, the state named [from] of every triple
    [(from, symbol, to)] exists and has no entry for [symbol], as every
    state of the automaton has an empty transition table. *)
Theorem MakeAutomata_records_no_triple (o : MapOrder)
    (transitions : list (string * string * string))
    (start_name : string) (finishStates : list string) (h : heap) :
  MakeAutomata o transitions start_name finishStates h = Panic NilMapWrite
  ∧ ∃ (start : node) (m : gmap string node) (h' : heap),
      MakeAutomata_body o transitions start_name finishStates (mkWorld empty_automata h)
        = Ok ((), mkWorld (mkAutomata start (Some m)) h')
      ∧ (∀ name n symbol, m !! name = Some n → GetEdges h' n !! symbol = None)
      ∧ (∀ from symbol to, (from, symbol, to) ∈ transitions →
           ∃ n, m !! from = Some n ∧ GetEdges h' n !! symbol = None).
Proof.
  split.
  { unfold MakeAutomata. by rewrite MakeAutomata_body_nil_table. }
  destruct (MakeAutomata_body_built o transitions start_name finishStates h _
              (built_from_empty h)) as ([[start nm] h'] & Hrun & Hbuilt & _ & Hnames).
  destruct Hbuilt as (m & k & Hm & Hheap & Hall). cbn in Hm, Hheap. subst nm h'.
  exists start, m, (h ++ replicate k ∅). split; [done|].
  assert (∀ name n symbol, m !! name = Some n →
            GetEdges (h ++ replicate k ∅) n !! symbol = None) as Hempty.
  { intros name n symbol Hn. destruct (Hall name n Hn) as (_ & a & Ha & Hle).
    by eapply added_table_empty. }
  split; [done|].
  intros from symbol to Ht. destruct (Hnames _ Ht) as [Hfrom _].
  unfold known_names in Hfrom. cbn in Hfrom.
  apply elem_of_dom in Hfrom as [n Hn]. exists n. split; [done|]. by eapply Hempty.
Qed.

(** C2: no state is marked final.  [MakeAutomata] panics on the nil node
    table; and the loop over [finishMap] sets [Final] on a local copy of the
    table entry and drops the copy: even when the node table has been
    allocated, the automaton left by the body of [MakeAutomata] has no final
    state at all; in particular the state named by an element of
    [finishStates] that occurs in a triple exists and is not final. *)
Theorem MakeAutomata_marks_no_final (o : MapOrder)
    (transitions : list (string * string * string))
    (start_name : string) (finishStates : list string) (h : heap) :
  MakeAutomata o transitions start_name finishStates h = Panic NilMapWrite
  ∧ ∃ (start : node) (m : gmap string node) (h' : heap),
      MakeAutomata_body o transitions start_name finishStates (mkWorld empty_automata h)
        = Ok ((), mkWorld (mkAutomata start (Some m)) h')
      ∧ IsFinal start = false
      ∧ (∀ name n, m !! name = Some n → IsFinal n = false)
      ∧ (∀ f, f ∈ finishStates →
           (∃ t, t ∈ transitions ∧ (f = t.1.1 ∨ f = t.2)) →
           ∃ n, m !! f = Some n ∧ IsFinal n = false).
Proof.
  split.
  { unfold MakeAutomata. by rewrite MakeAutomata_body_nil_table. }
  destruct (MakeAutomata_body_built o transitions start_name finishStates h _
              (built_from_empty h)) as ([[start nm] h'] & Hrun & Hbuilt & Hstart & Hnames).
  destruct Hbuilt as (m & k & Hm & Hheap & Hall). cbn in Hm, Hheap, Hstart. subst nm.
  exists start, m, h'. split; [done|]. split; [done|]. split.
  - intros name n Hn. by destruct (Hall name n Hn).
  - intros f Hf Hused. destruct Hused as (t & Ht & Hor).
    destruct (Hnames t Ht) as [Hfrom Hto]. unfold known_names in Hfrom, Hto.
    cbn in Hfrom, Hto.
    assert (f ∈ dom m) as [n Hn]%elem_of_dom by (destruct Hor as [->| ->]; done).
    exists n. split; [done|]. by destruct (Hall f n Hn).
Qed.

(** ** Determinization *)

Lemma closure_of_returns (o : MapOrder) (cfuel : nat) (n : node) (w : world) :
  size (heap_names (w_heap w)) < cfuel →
  ∃ closure, closure_of o cfuel n w = Ok (closure, w).
Proof.
  intros Hfuel. unfold closure_of.
  destruct (EpsilonClosure_returns (w_heap w) o cfuel n Hfuel) as (closure & -> & _).
  by exists closure.
Qed.

Lemma closures_of_returns (o : MapOrder) (cfuel : nat) (startNodes nodes : list node)
    (w : world) :
  size (heap_names (w_heap w)) < cfuel →
  ∃ nodes', closures_of o cfuel startNodes nodes w = Ok (nodes', w).
Proof.
  intros Hfuel. revert nodes.
  induction startNodes as [|nd rest IH]; intros nodes; cbn [closures_of].
  - by exists nodes.
  - destruct (closure_of_returns o cfuel nd w Hfuel) as (closure & Hcl).
    rewrite (bind_Ok _ _ _ _ _ Hcl). apply IH.
Qed.

(** On a nil node table [makeCompositNode] finds no node and panics in
    [CreateNode]. *)
Lemma makeCompositNode_nil_table (o : MapOrder) (cfuel : nat) (startNodes : list node)
    (w : world) :
  size (heap_names (w_heap w)) < cfuel →
  nodes (w_auto w) = None →
  makeCompositNode o cfuel startNodes w = Panic NilMapWrite.
Proof.
  intros Hfuel Hnil. unfold makeCompositNode.
  destruct (closures_of_returns o cfuel startNodes [] w Hfuel) as (merged & Hcl).
  rewrite (bind_Ok _ _ _ _ _ Hcl). cbn zeta.
  unfold mbind, M_bind, read_nodes, CreateNode, make_table, write_nodes.
  rewrite Hnil. cbn. unfold mbind, M_bind. cbn. by rewrite Hnil.
Qed.

(** C4: determinization returns no automaton to compare with.  [ToDFA]
    takes a [new(automata)], whose node table is nil, and the first
    composite state is assigned into that table: every call panics once the
    closure of the start state has been computed. *)
Theorem ToDFA_panics (o : MapOrder) (cfuel fuel : nat) (NFA : automata) (h : heap) :
  size (heap_names h) < cfuel →
  ToDFA o cfuel (S fuel) NFA h = Panic NilMapWrite.
Proof.
  intros Hfuel. unfold ToDFA. cbn [recursiveMerge].
  destruct (closure_of_returns o cfuel (beginning NFA) (mkWorld new_automata h) Hfuel)
    as (closure & Hcl).
  unfold mbind at 1. unfold M_bind at 1.
  rewrite (bind_Ok _ _ _ _ _ Hcl).
  unfold mbind at 1. unfold M_bind at 1.
  by rewrite makeCompositNode_nil_table.
Qed.

Lemma ToDFA_panics_witness :
  size (heap_names scenarioB_heap) < 5 ∧
  ToDFA id_order 5 1 (mkAutomata B0 None) scenarioB_heap = Panic NilMapWrite.
Proof.
  split; [vm_compute; lia|].
  apply (ToDFA_panics id_order 5 0 (mkAutomata B0 None) scenarioB_heap).
  vm_compute; lia.
Defined.

(** *** What a call of [recursiveMerge] leaves of the heap *)

Lemma bind_Ok_inv {St A B : Type} (m : M St A) (f : A → M St B) (st st' : St) (b : B) :
  (m ≫= f) st = Ok (b, st') → ∃ a st1, m st = Ok (a, st1) ∧ f a st1 = Ok (b, st').
Proof.
  unfold mbind, M_bind. destruct (m st) as [[a st1]| |]; [|done..]. eauto.
Qed.

Section Loops.
Context {St A : Type} (R : St → St → Prop) `{!PreOrder R}.

(** A loop whose every iteration is a step of a preorder is such a step. *)
Lemma for_each_step (l : list A) (body : A → M St ()) :
  (∀ x st st', x ∈ l → body x st = Ok ((), st') → R st st') →
  ∀ st st', for_each l body st = Ok ((), st') → R st st'.
Proof.
  induction l as [|x l IH]; intros Hbody st st' Hrun; cbn [for_each] in Hrun.
  - unfold mret, M_ret in Hrun. injection Hrun as ->. reflexivity.
  - apply bind_Ok_inv in Hrun as ([] & st1 & Hx & Hrest).
    trans st1.
    + apply (Hbody x); [by left|done].
    + apply IH; [|done]. intros y ? ? Hy. apply Hbody. by right.
Qed.

(** In a loop that returns, the iteration of each element has run. *)
Lemma for_each_elem (l : list A) (body : A → M St ()) (x : A) :
  (∀ y st st', y ∈ l → body y st = Ok ((), st') → R st st') →
  x ∈ l →
  ∀ st st', for_each l body st = Ok ((), st') →
  ∃ st1 st2, R st st1 ∧ body x st1 = Ok ((), st2) ∧ R st2 st'.
Proof.
  intros Hbody Hx. induction l as [|y l IH]; [by apply elem_of_nil in Hx|].
  intros st st' Hrun. cbn [for_each] in Hrun.
  apply bind_Ok_inv in Hrun as ([] & st1 & Hy & Hrest).
  apply elem_of_cons in Hx as [->|Hx].
  - exists st, st1. split; [done|]. split; [done|].
    apply (for_each_step l body); [|done]. intros z ? ? Hz. apply Hbody. by right.
  - assert (∀ z s s', z ∈ l → body z s = Ok ((), s') → R s s') as Hbody'.
    { intros z ? ? Hz. apply Hbody. by right. }
    destruct (IH Hbody' Hx st1 st' Hrest) as (s1 & s2 & H1 & H2 & H3).
    exists s1, s2. split; [|done]. trans st1; [|done].
    apply (Hbody y); [by left|done].
Qed.
End Loops.

Lemma extends_preorder : PreOrder extends.
Proof.
  split.
  - intros h. by split.
  - intros h1 h2 h3 [Hl12 H12] [Hl23 H23]. split; [lia|].
    intros b Hb. rewrite H23 by lia. by apply H12.
Qed.

Lemma grows_at_preorder (a : nat) : PreOrder (grows_at a).
Proof.
  split.
  - intros w _. by repeat split.
  - intros w1 w2 w3 H12 H23 Ha.
    destruct (H12 Ha) as (Hl12 & Hf12 & Hk12).
    destruct (H23 ltac:(lia)) as (Hl23 & Hf23 & Hk23).
    split; [lia|]. split; [|set_solver].
    intros b Hb. rewrite Hf23 by done. by apply Hf12.
Qed.

#[local] Existing Instance extends_preorder.
#[local] Existing Instance grows_at_preorder.

Lemma extends_grows_at (a : nat) (w w' : world) :
  extends (w_heap w) (w_heap w') → grows_at a w w'.
Proof.
  intros [Hlen Hframe] Ha. split; [done|]. split.
  - intros b Hb. apply Hframe. lia.
  - unfold keys_at. by rewrite Hframe.
Qed.

(** A write to the table at [a] keeps what was there and adds the key. *)
Lemma write_table_grows (n : node) (a : nat) (k : string) (v : list node) (w w' : world) :
  Transitions n = Some a →
  write_table n k v w = Ok ((), w') →
  w_auto w' = w_auto w
  ∧ grows_at a w w'
  ∧ (a < length (w_heap w) → k ∈ keys_at (w_heap w') a).
Proof.
  intros Hn Hrun. unfold write_table in Hrun. rewrite Hn in Hrun.
  injection Hrun as <-. cbn. split; [done|].
  assert (a < length (w_heap w) →
            keys_at (alter (<[k:=v]>) a (w_heap w)) a = {[k]} ∪ keys_at (w_heap w) a) as Hkeys.
  { intros Ha. unfold keys_at. rewrite list_lookup_alter_eq.
    destruct (lookup_lt_is_Some_2 _ _ Ha) as [t ->]. cbn. apply dom_insert_L. }
  split.
  - intros Ha. cbn. rewrite length_alter. split; [done|]. split.
    + intros b Hb. apply list_lookup_alter_ne. lia.
    + rewrite (Hkeys Ha). set_solver.
  - intros Ha. rewrite (Hkeys Ha). set_solver.
Qed.

Lemma copy_entry_grows (returnNode mergedNode : node) (a : nat)
    (input : string) (endNode : list node) (w w' : world) :
  Transitions returnNode = Some a →
  copy_entry returnNode mergedNode (input, endNode) w = Ok ((), w') →
  grows_at a w w' ∧ (a < length (w_heap w) → input ∈ keys_at (w_heap w') a).
Proof.
  intros Hret Hrun. unfold copy_entry in Hrun.
  apply bind_Ok_inv in Hrun as (h1 & w0 & Hget & Hrun).
  injection Hget as <- <-.
  apply bind_Ok_inv in Hrun as ([] & w1 & Hfirst & Hrun).
  apply bind_Ok_inv in Hrun as (h2 & w1' & Hget & Hrun).
  injection Hget as <- <-.
  assert (grows_at a w w1) as H01.
  { destruct (table_of (w_heap w) returnNode !! input).
    - injection Hfirst as <-. reflexivity.
    - by destruct (write_table_grows _ _ _ _ _ _ Hret Hfirst) as (_ & ? & _). }
  destruct (write_table_grows _ _ _ _ _ _ Hret Hrun) as (_ & H12 & Hkey).
  split.
  - by etrans.
  - intros Ha. apply Hkey. destruct (H01 Ha) as (? & _). lia.
Qed.

Lemma copy_node_grows (o : MapOrder) (returnNode mergedNode : node) (a : nat)
    (w w' : world) :
  Transitions returnNode = Some a →
  (h ← get_heap;
   for_each (range_map o (table_of h mergedNode)) (copy_entry returnNode mergedNode)) w
    = Ok ((), w') →
  grows_at a w w'
  ∧ (a < length (w_heap w) →
     dom (table_of (w_heap w) mergedNode) ⊆ keys_at (w_heap w') a).
Proof.
  intros Hret Hrun.
  apply bind_Ok_inv in Hrun as (h1 & w0 & Hget & Hrun). injection Hget as <- <-.
  assert (∀ y st st', y ∈ range_map o (table_of (w_heap w) mergedNode) →
            copy_entry returnNode mergedNode y st = Ok ((), st') → grows_at a st st') as Hstep.
  { intros [input endNode] st st' _ Hy. by eapply copy_entry_grows. }
  split.
  - by eapply (for_each_step (grows_at a)).
  - intros Ha key [ds Hkey]%elem_of_dom.
    assert ((key, ds) ∈ range_map o (table_of (w_heap w) mergedNode)) as Hin.
    { unfold range_map. rewrite (reorder_perm o). by apply elem_of_map_to_list. }
    destruct (for_each_elem (grows_at a) _ _ _ Hstep Hin _ _ Hrun)
      as (s1 & s2 & H1 & Hbody & H2).
    destruct (H1 Ha) as (Hl1 & _).
    destruct (copy_entry_grows _ _ _ _ _ _ _ Hret Hbody) as (H12 & Hk).
    destruct (H12 ltac:(lia)) as (Hl2 & _).
    destruct (H2 ltac:(lia)) as (_ & _ & Hsub).
    apply Hsub, Hk. lia.
Qed.

(** The copying loop gives the composite state every key of every merged
    node whose table lies below the table of the composite state. *)
Lemma copy_transitions_keys (o : MapOrder) (returnNode : node) (mergedNodes : list node)
    (a : nat) (w w' : world) :
  Transitions returnNode = Some a →
  copy_transitions o returnNode mergedNodes w = Ok ((), w') →
  grows_at a w w'
  ∧ (a < length (w_heap w) →
     ∀ mergedNode b, mergedNode ∈ mergedNodes → Transitions mergedNode = Some b → b < a →
       keys_at (w_heap w) b ⊆ keys_at (w_heap w') a).
Proof.
  intros Hret Hrun. unfold copy_transitions in Hrun.
  assert (∀ y st st', y ∈ mergedNodes →
            (h ← get_heap;
             for_each (range_map o (table_of h y)) (copy_entry returnNode y)) st
              = Ok ((), st') → grows_at a st st') as Hstep.
  { intros y st st' _ Hy. by eapply copy_node_grows. }
  split.
  - exact (for_each_step (grows_at a) _ _ Hstep _ _ Hrun).
  - intros Ha mergedNode b Hin Hb Hlt.
    destruct (for_each_elem (grows_at a) _ _ _ Hstep Hin _ _ Hrun)
      as (s1 & s2 & H1 & Hbody & H2).
    destruct (H1 Ha) as (Hl1 & Hf1 & _).
    destruct (copy_node_grows _ _ _ _ _ _ Hret Hbody) as (H12 & Hk).
    destruct (H12 ltac:(lia)) as (Hl2 & _).
    destruct (H2 ltac:(lia)) as (_ & _ & Hsub).
    etrans; [|exact Hsub]. etrans; [|apply Hk; lia].
    unfold keys_at, table_of. rewrite Hb. by rewrite Hf1.
Qed.

Lemma visit_each_subseteq (rec : node → gmap string node → option (gmap string node)) :
  (∀ n e e', rec n e = Some e' → e !! Name n = None → e ⊆ e') →
  ∀ l e e', visit_each rec l e = Some e' → e ⊆ e'.
Proof.
  intros Hrec l. induction l as [|nd rest IH]; intros e e' Hrun; cbn in Hrun.
  - by simplify_eq.
  - destruct (e !! Name nd) eqn:Hnd; [by apply IH|].
    destruct (rec nd e) as [e1|] eqn:Hcall; [|done].
    trans e1; [by eapply Hrec|by apply IH].
Qed.

Lemma epsilonRecursive_subseteq (h : heap) (fuel : nat) :
  ∀ n e e', epsilonRecursive fuel h n e = Some e' → <[Name n := n]> e ⊆ e'.
Proof.
  induction fuel as [|fuel IH]; intros n e e' Hrun; [done|].
  cbn in Hrun. eapply visit_each_subseteq; [|exact Hrun].
  intros nd e1 e2 Hcall Hnone. trans (<[Name nd := nd]> e1).
  - by apply insert_subseteq.
  - by apply IH.
Qed.

(** Whenever the closure of a node is computed, the node is in it. *)
Lemma EpsilonClosure_self (o : MapOrder) (fuel : nat) (h : heap) (n : node)
    (closure : list node) :
  EpsilonClosure o fuel h n = Some closure → n ∈ closure.
Proof.
  unfold EpsilonClosure. intros Hrun.
  destruct (epsilonRecursive fuel h n ∅) as [e|] eqn:He; [|done].
  cbn in Hrun. injection Hrun as <-.
  apply list_elem_of_fmap. exists (Name n, n). split; [done|].
  unfold range_map. rewrite (reorder_perm o). apply elem_of_map_to_list.
  eapply lookup_weaken; [|by eapply epsilonRecursive_subseteq]. apply lookup_insert_eq.
Qed.

Lemma closure_of_inv (o : MapOrder) (cfuel : nat) (n : node) (w w' : world)
    (closure : list node) :
  closure_of o cfuel n w = Ok (closure, w') → w' = w ∧ n ∈ closure.
Proof.
  unfold closure_of. intros Hrun.
  destruct (EpsilonClosure o cfuel (w_heap w) n) as [cl|] eqn:Hcl; [|done].
  injection Hrun as <- <-. split; [done|]. by eapply EpsilonClosure_self.
Qed.

Lemma closures_of_inv (o : MapOrder) (cfuel : nat) (startNodes : list node) :
  ∀ (acc merged : list node) (w w' : world),
    closures_of o cfuel startNodes acc w = Ok (merged, w') →
    w' = w ∧ (∀ x, x ∈ acc → x ∈ merged) ∧ (∀ x, x ∈ startNodes → x ∈ merged).
Proof.
  induction startNodes as [|nd rest IH]; intros acc merged w w' Hrun;
    cbn [closures_of] in Hrun.
  - injection Hrun as <- <-. split; [done|]. split; [done|].
    by intros x ?%elem_of_nil.
  - apply bind_Ok_inv in Hrun as (closure & w1 & Hcl & Hrun).
    apply closure_of_inv in Hcl as [-> Hself].
    apply IH in Hrun as (-> & Hacc & Hrest). split; [done|]. split.
    + intros x Hx. apply Hacc, elem_of_app. by left.
    + intros x [->|Hx]%elem_of_cons; [|by apply Hrest].
      apply Hacc, elem_of_app. by right.
Qed.

(** What [makeCompositNode] returns: the merged nodes include the start
    nodes; and either the composite state was found and nothing changed, or
    it was created and owns the single table added to the heap. *)
Lemma makeCompositNode_inv (o : MapOrder) (cfuel : nat) (startNodes merged : list node)
    (returnNode : node) (err : bool) (w w' : world) :
  makeCompositNode o cfuel startNodes w = Ok ((returnNode, merged, err), w') →
  (∀ x, x ∈ startNodes → x ∈ merged)
  ∧ (if err then w' = w
     else Transitions returnNode = Some (length (w_heap w))
          ∧ w_heap w' = w_heap w ++ [∅]).
Proof.
  unfold makeCompositNode. intros Hrun.
  apply bind_Ok_inv in Hrun as (merged' & w1 & Hcl & Hrun).
  apply closures_of_inv in Hcl as (-> & _ & Hstart). cbn zeta in Hrun.
  apply bind_Ok_inv in Hrun as ([existing found] & w1 & Hread & Hrun).
  assert (w1 = w) as ->.
  { unfold read_nodes in Hread.
    destruct (nodes (w_auto w)) as [m|]; [destruct (m !! _)|]; by injection Hread. }
  cbn beta iota in Hrun. destruct found.
  - injection Hrun as <- <- <- <-. by split.
  - apply bind_Ok_inv in Hrun as (created & w2 & Hcreate & Hrun).
    injection Hrun as <- <- <- <-. split; [done|].
    unfold CreateNode, make_table, write_nodes, mbind, M_bind in Hcreate.
    cbn in Hcreate. destruct (nodes (w_auto w)); [|done].
    injection Hcreate as <- <-. by split.
Qed.

Lemma merge_entry_grows (rec : node → M world node) (returnNode : node) (a : nat)
    (entry : string * list node) (w w' : world) :
  (∀ first s n s', rec first s = Ok (n, s') → extends (w_heap s) (w_heap s')) →
  Transitions returnNode = Some a →
  merge_entry rec returnNode entry w = Ok ((), w') →
  grows_at a w w'.
Proof.
  intros Hrec Hret Hrun. destruct entry as [input [|first rest]]; [done|].
  cbn in Hrun. apply bind_Ok_inv in Hrun as (merged & w1 & Hcall & Hwrite).
  trans w1.
  - apply extends_grows_at. by eapply Hrec.
  - by destruct (write_table_grows _ _ _ _ _ _ Hret Hwrite) as (_ & ? & _).
Qed.

(** The body of [recursiveMerge] after a composite state owning the table
    at [a] has been created: copying and recursing keep the tables below
    [a] and the keys copied to [a]. *)
Lemma merge_body_grows (o : MapOrder) (rec : node → M world node)
    (returnNode final : node) (mergedNodes : list node) (a : nat) (w w' : world) :
  (∀ first s n s', rec first s = Ok (n, s') → extends (w_heap s) (w_heap s')) →
  Transitions returnNode = Some a →
  Transitions final = Some a →
  (copy_transitions o returnNode mergedNodes ≫= λ _,
   h ← get_heap;
   for_each (range_map o (table_of h final)) (merge_entry rec final) ≫= λ _,
   mret final) w = Ok (final, w') →
  ∃ w1, copy_transitions o returnNode mergedNodes w = Ok ((), w1)
        ∧ grows_at a w w1 ∧ grows_at a w1 w'.
Proof.
  intros Hrec Hret Hfin Hrun.
  apply bind_Ok_inv in Hrun as ([] & w1 & Hcopy & Hrun).
  apply bind_Ok_inv in Hrun as (h1 & w1' & Hget & Hrun). injection Hget as <- <-.
  apply bind_Ok_inv in Hrun as ([] & w2 & Hloop & Hrun). injection Hrun as <-.
  exists w1. split; [done|]. split.
  - by destruct (copy_transitions_keys _ _ _ _ _ _ Hret Hcopy).
  - apply (for_each_step (grows_at a) _ _) in Hloop; [done|].
    intros y st st' _ Hy. by eapply merge_entry_grows.
Qed.

(** A call of [recursiveMerge] that returns has kept every table that
    existed when it was called. *)
Lemma recursiveMerge_extends (o : MapOrder) (cfuel fuel : nat) :
  ∀ head w n w',
    recursiveMerge o cfuel fuel head w = Ok (n, w') → extends (w_heap w) (w_heap w').
Proof.
  induction fuel as [|fuel IH]; intros head w n w' Hrun; [done|].
  cbn [recursiveMerge] in Hrun.
  apply bind_Ok_inv in Hrun as (closure & w0 & Hcl & Hrun).
  apply closure_of_inv in Hcl as [-> _].
  apply bind_Ok_inv in Hrun as ([[returnNode merged] err] & w1 & Hmake & Hrun).
  apply makeCompositNode_inv in Hmake as [_ Hmake]. cbn beta iota in Hrun.
  destruct err.
  - subst w1. injection Hrun as <- <-. reflexivity.
  - destruct Hmake as (Hret & Hheap). cbn zeta in Hrun.
    set (final := mkNode _ _ _) in Hrun.
    assert (n = final) as ->.
    { apply bind_Ok_inv in Hrun as (? & ? & _ & Hrun').
      apply bind_Ok_inv in Hrun' as (? & ? & _ & Hrun').
      apply bind_Ok_inv in Hrun' as (? & ? & _ & Hrun'). by injection Hrun'. }
    destruct (merge_body_grows _ _ _ final _ _ _ _ IH Hret Hret Hrun) as (w2 & _ & H12 & H23).
    assert (length (w_heap w) < length (w_heap w1)) as Hlen.
    { rewrite Hheap, length_app. cbn. lia. }
    destruct (H12 Hlen) as (Hl2 & Hf2 & _).
    destruct (H23 ltac:(lia)) as (Hl3 & Hf3 & _).
    split; [lia|]. intros b Hb.
    rewrite Hf3, Hf2 by done. rewrite Hheap. by apply lookup_app_l.
Qed.

(** Determinization keeps epsilon entries, in general: when the start state
    has an entry for the epsilon string and [recursiveMerge], called on a
    freshly allocated node table, returns a composite state, that state has
    an entry for the epsilon string. *)
Lemma recursiveMerge_copies_epsilon (o : MapOrder) (cfuel fuel : nat) (h : heap)
    (head start : node) (w' : world) :
  is_Some (table_of h head !! epsilon) →
  recursiveMerge o cfuel fuel head (mkWorld empty_automata h) = Ok (start, w') →
  is_Some (table_of (w_heap w') start !! epsilon).
Proof.
  intros Heps Hrun. destruct fuel as [|fuel]; [done|].
  cbn [recursiveMerge] in Hrun.
  apply bind_Ok_inv in Hrun as (closure & w0 & Hcl & Hrun).
  apply closure_of_inv in Hcl as [-> Hself].
  apply bind_Ok_inv in Hrun as ([[returnNode merged] err] & w1 & Hmake & Hrun).
  assert (err = false) as ->.
  { unfold makeCompositNode in Hmake.
    apply bind_Ok_inv in Hmake as (? & ? & Hc & Hmake).
    apply closures_of_inv in Hc as (-> & _). cbn zeta in Hmake.
    apply bind_Ok_inv in Hmake as (? & ? & Hread & Hmake).
    unfold read_nodes in Hread. cbn in Hread. rewrite lookup_empty in Hread.
    injection Hread as <- <-. cbn beta iota in Hmake.
    apply bind_Ok_inv in Hmake as (? & ? & _ & Hmake). by injection Hmake. }
  apply makeCompositNode_inv in Hmake as (Hmerged & Hret & Hheap).
  cbn [w_heap] in Hret, Hheap. cbn beta iota zeta in Hrun.
  set (final := mkNode _ _ _) in Hrun.
  assert (start = final) as ->.
  { apply bind_Ok_inv in Hrun as (? & ? & _ & Hrun').
    apply bind_Ok_inv in Hrun' as (? & ? & _ & Hrun').
    apply bind_Ok_inv in Hrun' as (? & ? & _ & Hrun'). by injection Hrun'. }
  assert (Transitions final = Some (length h)) as Hfin by done.
  destruct (merge_body_grows _ _ _ final _ _ _ _ (recursiveMerge_extends o cfuel fuel)
              Hret Hfin Hrun) as (w2 & Hcopy & H12 & H23).
  assert (length h < length (w_heap w1)) as Hlen.
  { rewrite Hheap, length_app. cbn. lia. }
  destruct (H12 Hlen) as (Hl2 & _ & _).
  destruct (H23 ltac:(lia)) as (_ & _ & Hkeys).
  destruct (copy_transitions_keys _ _ _ _ _ _ Hret Hcopy) as (_ & Hcopied).
  (* the table of [head] lies below the new table and has the epsilon key *)
  unfold table_of in Heps. destruct (Transitions head) as [b|] eqn:Hb;
    [|rewrite lookup_empty in Heps; by destruct Heps].
  destruct (h !! b) as [t|] eqn:Ht; cbn in Heps;
    [|rewrite lookup_empty in Heps; by destruct Heps].
  assert (b < length h) as Hblt by (by eapply lookup_lt_Some).
  assert (epsilon ∈ keys_at (w_heap w') (length h)) as Hin.
  { apply Hkeys. eapply (Hcopied Hlen head b); [by apply Hmerged|done|done|].
    unfold keys_at. rewrite Hheap, lookup_app_l, Ht by done. cbn.
    by apply elem_of_dom. }
  unfold table_of. rewrite Hfin. by apply elem_of_dom.
Qed.

(** C5: epsilon entries survive determinization.  [ToDFA] itself panics on
    scenario B; run on an automaton whose node table has been allocated,
    [recursiveMerge] copies every key of the merged tables, the epsilon key
    included, and the start state it returns for scenario B has an entry for
    the epsilon string, under either iteration order. *)
Theorem recursiveMerge_keeps_epsilon_entry :
  ToDFA id_order 5 5 (mkAutomata B0 None) scenarioB_heap = Panic NilMapWrite
  ∧ (∃ start w,
       recursiveMerge id_order 5 5 B0 (mkWorld empty_automata scenarioB_heap) = Ok (start, w)
       ∧ Name start = "S0S1S1"
       ∧ is_Some (table_of (w_heap w) start !! epsilon))
  ∧ (∃ start w,
       recursiveMerge rev_order 5 5 B0 (mkWorld empty_automata scenarioB_heap) = Ok (start, w)
       ∧ Name start = "S0S1S1"
       ∧ is_Some (table_of (w_heap w) start !! epsilon)).
Proof.
  split; [vm_compute; reflexivity|].
  split; eexists _, _; (split; [vm_compute; reflexivity|]);
    (split; [reflexivity|]); vm_compute; eauto.
Qed.

(** Scenario A is already deterministic and the fast path accepts "a b" on
    it.  Determinized on an allocated node table, the composite state for
    [S1] reaches itself on ["b"] through the copy kept in the node table,
    which was stored before the state was made final: the fast path on the
    result rejects "a b". *)
Example determinized_scenarioA_rejects_ab :
  DFAaccepts id_order 5 scenarioA_heap A0 ["a"; "b"] = Some true
  ∧ ∃ start w,
      recursiveMerge id_order 5 5 A0 (mkWorld empty_automata scenarioA_heap) = Ok (start, w)
      ∧ DFAaccepts id_order 5 (w_heap w) start ["a"; "b"] = Some false.
Proof.
  split; [vm_compute; reflexivity|].
  eexists _, _. split; vm_compute; reflexivity.
Qed.

(** ** The concurrent search *)

(** C3: [Accepts] does not resolve to a boolean.  The outer map [checked] is
    created empty and no inner map is ever allocated, so the first goroutine
    assigns into a nil map: for every head and every input, empty or not,
    the first invocation of [acceptsRoutine] panics, and with it the
    program. *)
Theorem Accepts_aborts
    (EpsilonTransition : heap → node → list node)
    (GetNext_err : heap → node → string → bool)
    (o : MapOrder) (cfuel : nat) (h : heap) (steps : nat)
    (head : node) (input : list string) :
  acceptsRoutine EpsilonTransition GetNext_err o cfuel h head input initial_search
    = Panic NilMapWrite
  ∧ Accepts EpsilonTransition GetNext_err o cfuel h (S steps) head input
    = Aborts NilMapWrite.
Proof.
  assert (∀ s0, found_closed s0 = false → wg s0 = 1%Z → checked s0 = ∅ →
            acceptsRoutine EpsilonTransition GetNext_err o cfuel h head input s0
            = Panic NilMapWrite) as Hfirst.
  { intros [fc n ch sp]. cbn. intros -> -> ->.
    unfold acceptsRoutine, mbind, M_bind, is_found_closed. cbn.
    destruct input as [|nextRune rest].
    - unfold close_found, wg_Done, checked_read, checked_write. cbn.
      destruct (Final head); reflexivity.
    - reflexivity. }
  split.
  - by apply Hfirst.
  - unfold Accepts. cbn [schedule spawned]. by rewrite Hfirst.
Qed.

(** * Further properties *)

(** ** Epsilon closure *)

Lemma visit_each_reached (h : heap) (root : node)
    (rec : node → gmap string node → option (gmap string node)) :
  (∀ nd e e', rec nd e = Some e' → rtc (epsilon_edge h) root nd →
              reached_from h root e → reached_from h root e') →
  ∀ l e e', (∀ d, d ∈ l → rtc (epsilon_edge h) root d) →
            visit_each rec l e = Some e' →
            reached_from h root e → reached_from h root e'.
Proof.
  intros Hrec l. induction l as [|nd rest IH]; intros e e' Hl Hrun He; cbn in Hrun.
  - by simplify_eq.
  - assert (∀ d, d ∈ rest → rtc (epsilon_edge h) root d) as Hrest.
    { intros d Hd. apply Hl. by right. }
    destruct (e !! Name nd); [by eapply IH|].
    destruct (rec nd e) as [e1|] eqn:Hcall; [|done].
    eapply IH; [done..|]. eapply Hrec; [done| |done]. apply Hl. by left.
Qed.

Lemma epsilonRecursive_reached (h : heap) (root : node) (fuel : nat) :
  ∀ n e e', epsilonRecursive fuel h n e = Some e' → rtc (epsilon_edge h) root n →
            reached_from h root e → reached_from h root e'.
Proof.
  induction fuel as [|fuel IH]; intros n e e' Hrun Hn He; [done|].
  cbn in Hrun. eapply visit_each_reached; [exact IH| |exact Hrun|].
  - intros d Hd. by eapply rtc_r.
  - by apply map_Forall_insert_2.
Qed.

(** X1: the closure holds nothing but states that are reached from [s] by
    following epsilon entries, zero or more times. *)
Theorem EpsilonClosure_sound (o : MapOrder) (fuel : nat) (h : heap) (s : node) :
  size (heap_names h) < fuel →
  ∃ closure, EpsilonClosure o fuel h s = Some closure
             ∧ ∀ n, n ∈ closure → rtc (epsilon_edge h) s n.
Proof.
  intros Hfuel.
  destruct (EpsilonClosure_returns h o fuel s Hfuel) as (closure & Hrun & _).
  exists closure. split; [done|]. intros n Hn.
  unfold EpsilonClosure in Hrun.
  destruct (epsilonRecursive fuel h s ∅) as [e|] eqn:He; [|done].
  cbn in Hrun. injection Hrun as <-.
  apply list_elem_of_fmap in Hn as ([k v] & -> & Hkv).
  unfold range_map in Hkv. rewrite (reorder_perm o) in Hkv.
  apply elem_of_map_to_list in Hkv.
  eapply (epsilonRecursive_reached h s fuel s ∅ e He); [done| |exact Hkv].
  apply map_Forall_empty.
Qed.

Lemma EpsilonClosure_sound_witness :
  size (heap_names scenarioB_heap) < 5 ∧
  ∃ closure, EpsilonClosure id_order 5 scenarioB_heap B0 = Some closure
             ∧ ∀ n, n ∈ closure → rtc (epsilon_edge scenarioB_heap) B0 n.
Proof.
  split; [vm_compute; lia|].
  apply (EpsilonClosure_sound id_order 5 scenarioB_heap B0).
  vm_compute; lia.
Defined.

Lemma visit_each_closed (h : heap)
    (rec : node → gmap string node → option (gmap string node)) :
  (∀ nd e e', rec nd e = Some e' → e !! Name nd = None →
              e ⊆ e' ∧ Name nd ∈ dom e' ∧ new_entries_closed h e e') →
  ∀ l e e', visit_each rec l e = Some e' →
            e ⊆ e' ∧ (∀ d, d ∈ l → Name d ∈ dom e') ∧ new_entries_closed h e e'.
Proof.
  intros Hrec l. induction l as [|nd rest IH]; intros e e' Hrun; cbn in Hrun.
  - simplify_eq. split; [done|]. split; [by intros ? ?%elem_of_nil|].
    intros k v Hk Hnone. congruence.
  - destruct (e !! Name nd) as [v0|] eqn:Hnd.
    + destruct (IH _ _ Hrun) as (Hsub & Hrest & Hnew). split; [done|]. split; [|done].
      intros d [->|Hd]%elem_of_cons; [|by apply Hrest].
      apply elem_of_dom. exists v0. by eapply lookup_weaken.
    + destruct (rec nd e) as [e1|] eqn:Hcall; [|done].
      destruct (Hrec _ _ _ Hcall Hnd) as (Hsub1 & Hin1 & Hnew1).
      destruct (IH _ _ Hrun) as (Hsub2 & Hrest & Hnew2).
      split; [by etrans|]. split.
      * intros d [->|Hd]%elem_of_cons; [|by apply Hrest].
        by apply (subseteq_dom _ _ Hsub2).
      * intros k v Hk Hnone d Hd.
        destruct (e1 !! k) as [v1|] eqn:Hk1.
        -- assert (v1 = v) as ->.
           { pose proof (lookup_weaken _ _ _ _ Hk1 Hsub2). congruence. }
           apply (subseteq_dom _ _ Hsub2). by eapply Hnew1.
        -- by eapply Hnew2.
Qed.

Lemma epsilonRecursive_closed (h : heap) (fuel : nat) :
  ∀ n e e', epsilonRecursive fuel h n e = Some e' → e !! Name n = None →
            e ⊆ e' ∧ Name n ∈ dom e' ∧ new_entries_closed h e e'.
Proof.
  induction fuel as [|fuel IH]; intros n e e' Hrun Hnone; [done|].
  cbn in Hrun.
  destruct (visit_each_closed h _ IH _ _ _ Hrun) as (Hsub & Hslice & Hnew).
  assert (e' !! Name n = Some n) as Hn.
  { eapply lookup_weaken; [|exact Hsub]. apply lookup_insert_eq. }
  split; [|split].
  - etrans; [|exact Hsub]. by apply insert_subseteq.
  - by eapply elem_of_dom_2.
  - intros k v Hk Hk0 d Hd. destruct (decide (k = Name n)) as [->|Hne].
    + assert (v = n) as -> by congruence. by apply Hslice.
    + eapply Hnew; [exact Hk| |exact Hd]. by rewrite lookup_insert_ne.
Qed.

(** X2: the closure is closed under silent steps, by name: every epsilon
    destination of a state of the closure has the name of some state of the
    closure. *)
Theorem EpsilonClosure_successor_closed (o : MapOrder) (fuel : nat) (h : heap) (s : node) :
  size (heap_names h) < fuel →
  ∃ closure, EpsilonClosure o fuel h s = Some closure
             ∧ ∀ n d, n ∈ closure → epsilon_edge h n d →
                      ∃ d', d' ∈ closure ∧ Name d' = Name d.
Proof.
  intros Hfuel.
  destruct (EpsilonClosure_returns h o fuel s Hfuel) as (closure & Hrun & _).
  exists closure. split; [done|]. intros n d Hn Hd.
  unfold EpsilonClosure in Hrun.
  destruct (epsilonRecursive fuel h s ∅) as [e|] eqn:He; [|done].
  cbn in Hrun. injection Hrun as <-.
  destruct (epsilonRecursive_closed h fuel s ∅ e He (lookup_empty _)) as (_ & _ & Hnew).
  assert (keyed_by_name e) as Hkeys.
  { eapply epsilonRecursive_keyed; [exact He|]. apply map_Forall_empty. }
  apply list_elem_of_fmap in Hn as ([k v] & -> & Hkv).
  unfold range_map in Hkv. rewrite (reorder_perm o) in Hkv.
  apply elem_of_map_to_list in Hkv.
  pose proof (Hnew k v Hkv (lookup_empty _) d Hd) as Hin.
  apply elem_of_dom in Hin as [d' Hd'].
  exists d'. split.
  - apply list_elem_of_fmap. exists (Name d, d'). split; [done|].
    unfold range_map. rewrite (reorder_perm o). by apply elem_of_map_to_list.
  - by apply (Hkeys _ _ Hd').
Qed.

Lemma EpsilonClosure_successor_closed_witness :
  size (heap_names scenarioB_heap) < 5 ∧
  ∃ closure, EpsilonClosure rev_order 5 scenarioB_heap B0 = Some closure
             ∧ ∀ n d, n ∈ closure → epsilon_edge scenarioB_heap n d →
                      ∃ d', d' ∈ closure ∧ Name d' = Name d.
Proof.
  split; [vm_compute; lia|].
  apply (EpsilonClosure_successor_closed rev_order 5 scenarioB_heap B0).
  vm_compute; lia.
Defined.

(** X3: the iteration order of the visited map only permutes the closure. *)
Theorem EpsilonClosure_order_irrelevant (o1 o2 : MapOrder) (fuel : nat) (h : heap) (s : node) :
  size (heap_names h) < fuel →
  ∃ closure1 closure2,
    EpsilonClosure o1 fuel h s = Some closure1
    ∧ EpsilonClosure o2 fuel h s = Some closure2
    ∧ closure1 ≡ₚ closure2.
Proof.
  intros Hfuel.
  destruct (EpsilonClosure_returns h o1 fuel s Hfuel) as (c1 & Hrun1 & _).
  destruct (EpsilonClosure_returns h o2 fuel s Hfuel) as (c2 & Hrun2 & _).
  exists c1, c2. split; [done|]. split; [done|].
  unfold EpsilonClosure in Hrun1, Hrun2.
  destruct (epsilonRecursive fuel h s ∅) as [e|]; [|done].
  cbn in Hrun1, Hrun2. injection Hrun1 as <-. injection Hrun2 as <-.
  unfold range_map. by rewrite !reorder_perm.
Qed.

Lemma EpsilonClosure_order_irrelevant_witness :
  size (heap_names scenarioB_heap) < 5 ∧
  ∃ closure1 closure2,
    EpsilonClosure id_order 5 scenarioB_heap B0 = Some closure1
    ∧ EpsilonClosure rev_order 5 scenarioB_heap B0 = Some closure2
    ∧ closure1 ≡ₚ closure2.
Proof.
  split; [vm_compute; lia|].
  apply (EpsilonClosure_order_irrelevant id_order rev_order 5 scenarioB_heap B0).
  vm_compute; lia.
Defined.

Lemma visit_each_all_seen (rec : node → gmap string node → option (gmap string node))
    (l : list node) (e : gmap string node) :
  (∀ d, d ∈ l → is_Some (e !! Name d)) → visit_each rec l e = Some e.
Proof.
  induction l as [|nd rest IH]; intros Hl; cbn; [done|].
  destruct (Hl nd ltac:(left)) as [v ->]. apply IH. intros d Hd. apply Hl. by right.
Qed.

Lemma EpsilonClosure_singleton (o : MapOrder) (fuel : nat) (h : heap) (s : node) :
  (∀ d, epsilon_edge h s d → Name d = Name s) →
  EpsilonClosure o (S fuel) h s = Some [s].
Proof.
  intros Hself. unfold EpsilonClosure. cbn [epsilonRecursive].
  rewrite visit_each_all_seen.
  - cbn. f_equal. unfold range_map.
    assert (reorder o node (map_to_list (<[Name s:=s]> ∅)) = [(Name s, s)]) as ->; [|done].
    apply Permutation_singleton_r. rewrite reorder_perm.
    rewrite insert_empty. by rewrite map_to_list_singleton.
  - intros d Hd. rewrite (Hself d Hd), lookup_insert_eq. by eexists.
Qed.

(** X4: a state whose epsilon entry is missing, empty, or leads only to
    states of its own name has the closure [[s]], with any positive budget
    and under every iteration order; [GetNext] on such a state returns the
    destinations of the entry followed by the state itself. *)
Theorem EpsilonClosure_alone (o : MapOrder) (fuel : nat) (h : heap) (s : node) :
  (∀ d, epsilon_edge h s d → Name d = Name s) →
  EpsilonClosure o (S fuel) h s = Some [s]
  ∧ ∀ a, GetNext o (S fuel) h s a
         = Some (match table_of h s !! a with
                 | None => []
                 | Some ds => ds ++ [s]
                 end).
Proof.
  intros Hself. pose proof (EpsilonClosure_singleton o fuel h s Hself) as Hcl.
  split; [done|]. intros a. unfold GetNext. rewrite Hcl. cbn.
  by destruct (table_of h s !! a).
Qed.

Lemma EpsilonClosure_alone_witness :
  (∀ d, epsilon_edge scenarioB_heap B2 d → Name d = Name B2) ∧
  EpsilonClosure rev_order 1 scenarioB_heap B2 = Some [B2]
  ∧ ∀ a, GetNext rev_order 1 scenarioB_heap B2 a
         = Some (match table_of scenarioB_heap B2 !! a with
                 | None => []
                 | Some ds => ds ++ [B2]
                 end).
Proof.
  split.
  - intros d Hd. vm_compute in Hd. by apply elem_of_nil in Hd.
  - apply (EpsilonClosure_alone rev_order 0 scenarioB_heap B2).
    intros d Hd. vm_compute in Hd. by apply elem_of_nil in Hd.
Defined.

(** ** The deterministic walk on arbitrary automata *)



(** ** Composite names *)

Lemma concat_length (l : list string) :
  String.length (foldr String.app "" l) = sum_list (String.length <$> l).
Proof.
  induction l as [|x l IH]; [done|]. cbn [foldr fmap list_fmap].
  assert (∀ y, String.length (x +:+ y) = String.length x + String.length y) as ->.
  { intros y. induction x as [|c x IHx]; [done|]. rewrite append_cons. cbn. by rewrite IHx. }
  by rewrite IH.
Qed.

(** X6: the composite name is canonical: it is the concatenation of the
    names put in ascending order, any rearrangement of the names gives the
    same composite name, and no name is dropped, repeated names included:
    the length of the result is the sum of the lengths of the names. *)
Theorem compositNodeName_canonical (names : list string) :
  (∃ sorted, sorted ≡ₚ names ∧ Sorted String.le sorted
             ∧ compositNodeName names = foldr String.app "" sorted)
  ∧ (∀ names', names ≡ₚ names' → compositNodeName names' = compositNodeName names)
  ∧ String.length (compositNodeName names) = sum_list (String.length <$> names).
Proof.
  split; [|split].
  - exists (sort_Strings names). unfold sort_Strings. split; [|split].
    + apply merge_sort_Permutation.
    + apply Sorted_merge_sort. apply _.
    + apply compositNodeName_concat.
  - intros names' Hperm. symmetry. by apply compositNodeName_order_independent.
  - rewrite compositNodeName_concat, concat_length. unfold sort_Strings.
    by rewrite merge_sort_Permutation.
Qed.

(** ** Composite states *)

Lemma name_parts_fmap (acc : list string) (nodes : list node) :
  foldl (λ parts nd, parts ++ [Name nd]) acc nodes = acc ++ (Name <$> nodes).
Proof.
  revert acc. induction nodes as [|nd nodes IH]; intros acc; cbn.
  - by rewrite (right_id_L [] (++)).
  - by rewrite IH, <- (assoc_L (++)).
Qed.






(** ** Determinization: what it keeps *)

Lemma table_grows_preorder : PreOrder table_grows.
Proof.
  split.
  - intros w m Hm. by exists m.
  - intros w1 w2 w3 H12 H23 m Hm.
    destruct (H12 m Hm) as (m2 & Hm2 & Hs12 & Hp12).
    destruct (H23 m2 Hm2) as (m3 & Hm3 & Hs23 & Hp23).
    exists m3. split; [done|]. split; [by etrans|auto].
Qed.

#[local] Existing Instance table_grows_preorder.

Lemma same_auto_table_grows (w w' : world) : w_auto w' = w_auto w → table_grows w w'.
Proof. intros Heq m Hm. exists m. by rewrite Heq. Qed.

Lemma write_table_table_grows (n : node) (k : string) (v : list node) (w w' : world) :
  write_table n k v w = Ok ((), w') → table_grows w w'.
Proof.
  unfold write_table. destruct (Transitions n); [|done].
  intros [= <-]. by apply same_auto_table_grows.
Qed.

Lemma copy_transitions_table_grows (o : MapOrder) (returnNode : node)
    (mergedNodes : list node) (w w' : world) :
  copy_transitions o returnNode mergedNodes w = Ok ((), w') → table_grows w w'.
Proof.
  unfold copy_transitions. apply (for_each_step table_grows).
  intros mn st st' _ Hrun.
  apply bind_Ok_inv in Hrun as (h1 & w0 & Hget & Hrun). injection Hget as <- <-.
  revert Hrun. apply (for_each_step table_grows).
  intros [input endNode] s1 s2 _ Hrun. unfold copy_entry in Hrun.
  apply bind_Ok_inv in Hrun as (h2 & s0 & Hget & Hrun). injection Hget as <- <-.
  apply bind_Ok_inv in Hrun as ([] & s3 & Hfirst & Hrun).
  apply bind_Ok_inv in Hrun as (h3 & s0 & Hget & Hrun). injection Hget as <- <-.
  trans s3.
  - destruct (table_of (w_heap s1) returnNode !! input).
    + injection Hfirst as <-. reflexivity.
    + by eapply write_table_table_grows.
  - by eapply write_table_table_grows.
Qed.

(** [makeCompositNode] adds at most one entry to the node table: a
    non-final state under a name that had none. *)
Lemma makeCompositNode_table_grows (o : MapOrder) (cfuel : nat) (startNodes merged : list node)
    (returnNode : node) (err : bool) (w w' : world) :
  makeCompositNode o cfuel startNodes w = Ok ((returnNode, merged, err), w') →
  table_grows w w'
  ∧ (err = false → ∃ m', nodes (w_auto w') = Some m'
                         ∧ m' !! Name returnNode = Some returnNode
                         ∧ Final returnNode = false
                         ∧ Name returnNode = compositNodeName (Name <$> merged)).
Proof.
  unfold makeCompositNode. intros Hrun.
  apply bind_Ok_inv in Hrun as (merged' & w1 & Hcl & Hrun).
  apply closures_of_inv in Hcl as (-> & _). cbn zeta in Hrun.
  rewrite name_parts_fmap in Hrun. cbn [app] in Hrun.
  apply bind_Ok_inv in Hrun as ([existing found] & w1 & Hread & Hrun).
  unfold read_nodes in Hread. cbn beta iota in Hrun.
  destruct (nodes (w_auto w)) as [m|] eqn:Hm.
  - destruct (m !! compositNodeName (Name <$> merged')) as [n|] eqn:Hn;
      injection Hread as <- <- <-.
    + injection Hrun as <- <- <- <-. split; [reflexivity|done].
    + apply bind_Ok_inv in Hrun as (created & w2 & Hcreate & Hrun).
      injection Hrun as <- <- <- <-.
      unfold CreateNode, make_table, write_nodes, mbind, M_bind in Hcreate.
      cbn in Hcreate. rewrite Hm in Hcreate. injection Hcreate as <- <-. cbn. split.
      * intros m0 Hm0. rewrite Hm in Hm0. injection Hm0 as <-. cbn.
        eexists. split; [done|]. split; [by apply insert_subseteq|].
        intros Hplain. by apply map_Forall_insert_2.
      * intros _. eexists. split; [done|]. by rewrite lookup_insert_eq.
  - injection Hread as <- <- <-.
    apply bind_Ok_inv in Hrun as (created & w2 & Hcreate & Hrun).
    unfold CreateNode, make_table, write_nodes, mbind, M_bind in Hcreate.
    cbn in Hcreate. by rewrite Hm in Hcreate.
Qed.

Lemma merge_entry_table_grows (rec : node → M world node) (returnNode : node)
    (entry : string * list node) (w w' : world) :
  (∀ first s n s', rec first s = Ok (n, s') → table_grows s s') →
  merge_entry rec returnNode entry w = Ok ((), w') →
  table_grows w w'.
Proof.
  intros Hrec Hrun. destruct entry as [input [|first rest]]; [done|].
  cbn in Hrun. apply bind_Ok_inv in Hrun as (merged & w1 & Hcall & Hwrite).
  trans w1; [by eapply Hrec|by eapply write_table_table_grows].
Qed.

Lemma recursiveMerge_table_grows (o : MapOrder) (cfuel fuel : nat) :
  ∀ head w n w', recursiveMerge o cfuel fuel head w = Ok (n, w') → table_grows w w'.
Proof.
  induction fuel as [|fuel IH]; intros head w n w' Hrun; [done|].
  cbn [recursiveMerge] in Hrun.
  apply bind_Ok_inv in Hrun as (closure & w0 & Hcl & Hrun).
  apply closure_of_inv in Hcl as [-> _].
  apply bind_Ok_inv in Hrun as ([[returnNode merged] err] & w1 & Hmake & Hrun).
  apply makeCompositNode_table_grows in Hmake as [Hmake _]. cbn beta iota in Hrun.
  destruct err.
  - injection Hrun as <- <-. done.
  - cbn zeta in Hrun.
    apply bind_Ok_inv in Hrun as ([] & w2 & Hcopy & Hrun).
    apply bind_Ok_inv in Hrun as (h2 & w2' & Hget & Hrun). injection Hget as <- <-.
    apply bind_Ok_inv in Hrun as ([] & w3 & Hloop & Hrun). injection Hrun as <- <-.
    trans w1; [done|]. trans w2; [by eapply copy_transitions_table_grows|].
    revert Hloop. apply (for_each_step table_grows).
    intros entry st st' _ Hentry. by eapply merge_entry_table_grows.
Qed.

(** X8: determinization changes nothing that exists.  When a call of
    [recursiveMerge] returns, every transition table that existed before the
    call, those of the source automaton among them, is unchanged, and the
    node table still holds every entry it held. *)
Theorem recursiveMerge_keeps_tables (o : MapOrder) (cfuel fuel : nat)
    (head n : node) (w w' : world) :
  recursiveMerge o cfuel fuel head w = Ok (n, w') →
  length (w_heap w) ≤ length (w_heap w')
  ∧ (∀ a, a < length (w_heap w) → w_heap w' !! a = w_heap w !! a)
  ∧ (∀ m, nodes (w_auto w) = Some m →
          ∃ m', nodes (w_auto w') = Some m' ∧ m ⊆ m').
Proof.
  intros Hrun.
  destruct (recursiveMerge_extends o cfuel fuel head w n w' Hrun) as [Hlen Hframe].
  split; [done|]. split; [done|].
  intros m Hm.
  destruct (recursiveMerge_table_grows o cfuel fuel head w n w' Hrun m Hm)
    as (m' & Hm' & Hsub & _).
  by exists m'.
Qed.

Lemma recursiveMerge_keeps_tables_witness :
  ∃ n w',
    recursiveMerge id_order 5 5 A0 (mkWorld empty_automata scenarioA_heap) = Ok (n, w')
    ∧ length scenarioA_heap ≤ length (w_heap w')
    ∧ (∀ a, a < length scenarioA_heap → w_heap w' !! a = scenarioA_heap !! a)
    ∧ (∀ m, nodes empty_automata = Some m →
            ∃ m', nodes (w_auto w') = Some m' ∧ m ⊆ m').
Proof.
  eexists _, _. split; [vm_compute; reflexivity|].
  eapply (recursiveMerge_keeps_tables id_order 5 5 A0 _
            (mkWorld empty_automata scenarioA_heap)).
  vm_compute; reflexivity.
Defined.

Lemma merged_final_spec (l : list node) :
  merged_final l = true ↔ ∃ n, n ∈ l ∧ Final n = true.
Proof.
  unfold merged_final.
  assert (∀ acc, foldl (λ final nd, if Final nd then true else final) acc l = true
                 ↔ acc = true ∨ ∃ n, n ∈ l ∧ Final n = true) as Hgen.
  { induction l as [|x l IH]; intros acc; cbn.
    - split; [by left|]. intros [?|(n & Hn & _)]; [done|by apply elem_of_nil in Hn].
    - rewrite IH. split.
      + intros [Hacc|(n & Hn & Hf)].
        * destruct (Final x) eqn:Hx; [|by left]. right. exists x. split; [by left|done].
        * right. exists n. split; [by right|done].
      + intros [->|(n & [->|Hn]%elem_of_cons & Hf)].
        * left. by destruct (Final x).
        * left. by rewrite Hf.
        * right. by exists n. }
  rewrite Hgen. split; [|by right]. by intros [?|?].
Qed.

(** The first call on a fresh node table, opened up: the closure, the merged
    nodes, the state created and what the rest of the call does. *)
Lemma recursiveMerge_fresh_inv (o : MapOrder) (cfuel fuel : nat) (h : heap)
    (head start : node) (w' : world) :
  recursiveMerge o cfuel fuel head (mkWorld empty_automata h) = Ok (start, w') →
  ∃ closure merged w1,
    EpsilonClosure o cfuel h head = Some closure
    ∧ closures_of o cfuel closure [] (mkWorld empty_automata h)
        = Ok (merged, mkWorld empty_automata h)
    ∧ head ∈ merged
    ∧ start = mkNode (compositNodeName (Name <$> merged)) (Some (length h))
                (merged_final merged)
    ∧ nodes (w_auto w1)
        = Some {[ Name start := mkNode (Name start) (Some (length h)) false ]}
    ∧ table_grows w1 w'.
Proof.
  intros Hrun. destruct fuel as [|fuel]; [done|].
  cbn [recursiveMerge] in Hrun.
  apply bind_Ok_inv in Hrun as (closure & w0 & Hcl & Hrun).
  pose proof (closure_of_inv _ _ _ _ _ _ Hcl) as [-> Hself].
  unfold closure_of in Hcl. cbn [w_heap] in Hcl.
  destruct (EpsilonClosure o cfuel h head) as [cl|] eqn:Hclosure; [|done].
  injection Hcl as ->.
  apply bind_Ok_inv in Hrun as ([[returnNode merged] err] & w1 & Hmake & Hrun).
  pose proof Hmake as Hmake'. unfold makeCompositNode in Hmake'.
  apply bind_Ok_inv in Hmake' as (merged' & w0 & Hcls & Hmake').
  pose proof (closures_of_inv _ _ _ _ _ _ _ Hcls) as (-> & _ & Hin).
  cbn zeta in Hmake'. rewrite name_parts_fmap in Hmake'. cbn [app] in Hmake'.
  apply bind_Ok_inv in Hmake' as (? & ? & Hread & Hmake').
  unfold read_nodes in Hread. cbn in Hread. rewrite lookup_empty in Hread.
  injection Hread as <- <-. cbn beta iota in Hmake'.
  apply bind_Ok_inv in Hmake' as (created & w2 & Hcreate & Hmake').
  injection Hmake' as <- <- <- <-.
  unfold CreateNode, make_table, write_nodes, mbind, M_bind in Hcreate.
  cbn in Hcreate. injection Hcreate as <- <-.
  cbn beta iota zeta in Hrun.
  apply bind_Ok_inv in Hrun as ([] & w3 & Hcopy & Hrun).
  apply bind_Ok_inv in Hrun as (h3 & w3' & Hget & Hrun). injection Hget as <- <-.
  apply bind_Ok_inv in Hrun as ([] & w4 & Hloop & Hrun). injection Hrun as <- <-.
  set (stored := mkNode (compositNodeName (Name <$> merged')) (Some (length h)) false) in *.
  exists closure, merged',
    (mkWorld (mkAutomata zero_node (Some (<[Name stored := stored]> ∅))) (h ++ [∅])).
  split; [done|]. split; [done|].
  split; [by apply Hin|]. split; [done|]. split.
  - cbn. by rewrite insert_empty.
  - trans w3; [by eapply copy_transitions_table_grows|].
    revert Hloop. apply (for_each_step table_grows).
    intros entry st st' _ Hentry. eapply merge_entry_table_grows; [|done].
    apply recursiveMerge_table_grows.
Qed.

(** X9: the node table of a determinized automaton holds no final state.
    After a call of [recursiveMerge] on a fresh node table every stored
    state is non-final and stored under its own name; the returned start
    state itself is stored as a non-final copy, whether or not it is final. *)
Theorem recursiveMerge_stores_no_final (o : MapOrder) (cfuel fuel : nat) (h : heap)
    (head start : node) (w' : world) :
  recursiveMerge o cfuel fuel head (mkWorld empty_automata h) = Ok (start, w') →
  ∃ m', nodes (w_auto w') = Some m'
        ∧ (∀ name n, m' !! name = Some n → Final n = false ∧ Name n = name)
        ∧ m' !! Name start = Some (mkNode (Name start) (Transitions start) false).
Proof.
  intros Hrun.
  destruct (recursiveMerge_fresh_inv _ _ _ _ _ _ _ Hrun)
    as (closure & merged & w1 & _ & _ & _ & Hstart & Hnodes & Hgrow).
  destruct (Hgrow _ Hnodes) as (m' & Hm' & Hsub & Hplain).
  exists m'. split; [done|]. split.
  - apply Hplain. by apply map_Forall_singleton.
  - eapply lookup_weaken; [|exact Hsub]. rewrite lookup_singleton_eq.
    by rewrite Hstart.
Qed.

Lemma recursiveMerge_stores_no_final_witness :
  ∃ start w',
    recursiveMerge id_order 5 5 A1 (mkWorld empty_automata scenarioA_heap) = Ok (start, w')
    ∧ ∃ m', nodes (w_auto w') = Some m'
            ∧ (∀ name n, m' !! name = Some n → Final n = false ∧ Name n = name)
            ∧ m' !! Name start = Some (mkNode (Name start) (Transitions start) false).
Proof.
  eexists _, _. split; [vm_compute; reflexivity|].
  apply (recursiveMerge_stores_no_final id_order 5 5 scenarioA_heap A1).
  vm_compute; reflexivity.
Defined.

(** X10: the state a first call of [recursiveMerge] returns.  Its name is
    the composite name of the merged nodes, which are the closures of the
    states of the closure of [head]; it owns the first table added to the
    heap; and it is final exactly when some merged node is final, so in
    particular when [head] is. *)
Theorem recursiveMerge_start_state (o : MapOrder) (cfuel fuel : nat) (h : heap)
    (head start : node) (w' : world) :
  recursiveMerge o cfuel fuel head (mkWorld empty_automata h) = Ok (start, w') →
  ∃ closure merged,
    EpsilonClosure o cfuel h head = Some closure
    ∧ closures_of o cfuel closure [] (mkWorld empty_automata h)
        = Ok (merged, mkWorld empty_automata h)
    ∧ Name start = compositNodeName (Name <$> merged)
    ∧ Transitions start = Some (length h)
    ∧ (Final start = true ↔ ∃ n, n ∈ merged ∧ Final n = true)
    ∧ (Final head = true → Final start = true).
Proof.
  intros Hrun.
  destruct (recursiveMerge_fresh_inv _ _ _ _ _ _ _ Hrun)
    as (closure & merged & w1 & Hcl & Hcls & Hin & -> & _ & _).
  exists closure, merged. split; [done|]. split; [done|]. cbn.
  split; [done|]. split; [done|]. split; [apply merged_final_spec|].
  intros Hfinal. apply merged_final_spec. by exists head.
Qed.

Lemma recursiveMerge_start_state_witness :
  ∃ start w',
    recursiveMerge rev_order 5 5 B0 (mkWorld empty_automata scenarioB_heap) = Ok (start, w')
    ∧ ∃ closure merged,
        EpsilonClosure rev_order 5 scenarioB_heap B0 = Some closure
        ∧ closures_of rev_order 5 closure [] (mkWorld empty_automata scenarioB_heap)
            = Ok (merged, mkWorld empty_automata scenarioB_heap)
        ∧ Name start = compositNodeName (Name <$> merged)
        ∧ Transitions start = Some (length scenarioB_heap)
        ∧ (Final start = true ↔ ∃ n, n ∈ merged ∧ Final n = true)
        ∧ (Final B0 = true → Final start = true).
Proof.
  eexists _, _. split; [vm_compute; reflexivity|].
  eapply (recursiveMerge_start_state rev_order 5 5 scenarioB_heap B0).
  vm_compute; reflexivity.
Defined.

(** ** Determinization: what the copying loop stores *)

Lemma for_each_total {St A : Type} (l : list A) (body : A → M St ()) :
  (∀ x st, ∃ st', body x st = Ok ((), st')) →
  ∀ st, ∃ st', for_each l body st = Ok ((), st').
Proof.
  intros Hbody. induction l as [|x l IH]; intros st; cbn [for_each].
  - by eexists.
  - destruct (Hbody x st) as [st1 H1]. destruct (IH st1) as [st2 H2].
    exists st2. by rewrite (bind_Ok _ _ _ _ _ H1).
Qed.

(** A write to the table of a node that has one. *)
Lemma write_table_spec (n : node) (a : nat) (k : string) (v : list node) (w : world) :
  Transitions n = Some a → a < length (w_heap w) →
  ∃ w', write_table n k v w = Ok ((), w')
        ∧ length (w_heap w') = length (w_heap w)
        ∧ (∀ b, b ≠ a → w_heap w' !! b = w_heap w !! b)
        ∧ table_of (w_heap w') n = <[k := v]> (table_of (w_heap w) n).
Proof.
  intros Hn Ha. unfold write_table. rewrite Hn. eexists. split; [done|]. cbn.
  split; [apply length_alter|]. split.
  - intros b Hb. by apply list_lookup_alter_ne.
  - unfold table_of. rewrite Hn, list_lookup_alter_eq.
    by destruct (lookup_lt_is_Some_2 _ _ Ha) as [t ->].
Qed.

Lemma copy_entry_total (returnNode mergedNode : node) (a : nat)
    (entry : string * list node) (w : world) :
  Transitions returnNode = Some a →
  ∃ w', copy_entry returnNode mergedNode entry w = Ok ((), w').
Proof.
  intros Hret. destruct entry as [input endNode].
  unfold copy_entry, get_heap, write_table, mbind, M_bind. rewrite Hret.
  destruct (table_of (w_heap w) returnNode !! input); cbn; by eexists.
Qed.

Lemma copy_entry_copied (w0 : world) (returnNode mergedNode : node) (a : nat)
    (mergedNodes : list node) (input : string) (ds : list node) (w w' : world) :
  Transitions returnNode = Some a →
  mergedNode ∈ mergedNodes →
  Transitions mergedNode ≠ Some a →
  table_of (w_heap w0) mergedNode !! input = Some ds →
  copy_entry returnNode mergedNode (input, ds) w = Ok ((), w') →
  copied_entries w0 returnNode a mergedNodes w →
  copied_entries w0 returnNode a mergedNodes w'.
Proof.
  intros Hret Hin Hne Hds Hrun (Ha & Hframe & Hentries). unfold copy_entry in Hrun.
  apply bind_Ok_inv in Hrun as (h1 & s0 & Hget & Hrun). injection Hget as <- <-.
  apply bind_Ok_inv in Hrun as ([] & w1 & Hfirst & Hrun).
  apply bind_Ok_inv in Hrun as (h2 & s0 & Hget & Hrun). injection Hget as <- <-.
  assert (length (w_heap w1) = length (w_heap w)
          ∧ (∀ b, b ≠ a → w_heap w1 !! b = w_heap w !! b)
          ∧ ∀ key, key ≠ input →
              table_of (w_heap w1) returnNode !! key = table_of (w_heap w) returnNode !! key)
    as (Hl1 & Hf1 & He1).
  { destruct (table_of (w_heap w) returnNode !! input).
    - by injection Hfirst as <-.
    - destruct (write_table_spec returnNode a input [] w Hret Ha)
        as (w1' & Hw & Hl & Hf & Ht).
      rewrite Hw in Hfirst. injection Hfirst as <-. split; [done|]. split; [done|].
      intros key Hkey. by rewrite Ht, lookup_insert_ne. }
  assert (slice_of (w_heap w1) mergedNode input = ds) as Hslice.
  { unfold slice_of. assert (table_of (w_heap w1) mergedNode = table_of (w_heap w0) mergedNode) as ->.
    { unfold table_of. destruct (Transitions mergedNode) as [b|]; [|done].
      rewrite Hf1, Hframe; [done|congruence..]. }
    by rewrite Hds. }
  rewrite Hslice in Hrun.
  destruct (write_table_spec returnNode a input (ds ++ ds) w1 Hret ltac:(lia))
    as (w2 & Hw & Hl2 & Hf2 & Ht2).
  rewrite Hw in Hrun. injection Hrun as <-.
  split; [lia|]. split.
  - intros b Hb. by rewrite Hf2, Hf1, Hframe.
  - intros key v Hkey. rewrite Ht2 in Hkey.
    destruct (decide (key = input)) as [->|Hk].
    + rewrite lookup_insert_eq in Hkey. injection Hkey as <-. right. by exists mergedNode, ds.
    + rewrite lookup_insert_ne, He1 in Hkey by done. by apply Hentries.
Qed.

(** X11: what the copying loop of [recursiveMerge] leaves in the table of
    the composite state.  The loop always runs through and touches no other
    table.  Every entry of the table afterwards is one it had before or the
    destination list of a single merged node written twice over: where
    several merged nodes have an entry for the same input, their
    destinations are not united, one of them overwrites the others. *)
Theorem copy_transitions_doubles (o : MapOrder) (returnNode : node)
    (mergedNodes : list node) (a : nat) (w : world) :
  Transitions returnNode = Some a →
  a < length (w_heap w) →
  Forall (λ mn, Transitions mn ≠ Some a) mergedNodes →
  ∃ w', copy_transitions o returnNode mergedNodes w = Ok ((), w')
        ∧ (∀ b, b ≠ a → w_heap w' !! b = w_heap w !! b)
        ∧ ∀ key v, table_of (w_heap w') returnNode !! key = Some v →
            table_of (w_heap w) returnNode !! key = Some v
            ∨ ∃ mn ds, mn ∈ mergedNodes
                       ∧ table_of (w_heap w) mn !! key = Some ds ∧ v = ds ++ ds.
Proof.
  intros Hret Ha Hne. rewrite Forall_forall in Hne.
  destruct (for_each_total mergedNodes
              (λ mergedNode, h ← get_heap;
                 for_each (range_map o (table_of h mergedNode))
                   (copy_entry returnNode mergedNode)) ) with (st := w) as [w' Hrun].
  { intros mn st. unfold mbind at 1. unfold M_bind at 1. cbn.
    apply for_each_total. intros entry st1. by eapply copy_entry_total. }
  exists w'. split; [exact Hrun|].
  set (R := λ st st' : world, copied_entries w returnNode a mergedNodes st →
                               copied_entries w returnNode a mergedNodes st').
  assert (PreOrder R) as HR.
  { split.
    - intros st Hst. exact Hst.
    - intros s1 s2 s3 H12 H23 H1. apply H23, H12, H1. }
  assert (R w w') as Hfinal.
  { revert Hrun. unfold copy_transitions. apply (for_each_step R).
    intros mn st st' Hmn Hbody Hst.
    apply bind_Ok_inv in Hbody as (h1 & s0 & Hget & Hbody). injection Hget as <- <-.
    assert (table_of (w_heap st) mn = table_of (w_heap w) mn) as Htable.
    { destruct Hst as (_ & Hframe & _). unfold table_of.
      destruct (Transitions mn) as [b|] eqn:Hb; [|done].
      rewrite Hframe; [done|]. intros ->. by apply (Hne mn Hmn). }
    revert Hbody Hst. apply (for_each_step R).
    intros [input ds] s1 s2 Hentry Hcopy Hs1.
    eapply copy_entry_copied; [done|exact Hmn|by apply Hne| |exact Hcopy|done].
    rewrite <- Htable. apply elem_of_map_to_list.
    unfold range_map in Hentry. by rewrite (reorder_perm o) in Hentry. }
  destruct Hfinal as (_ & Hframe & Hentries); [|done].
  split; [done|]. split; [done|]. intros key v Hkey. by left.
Qed.

Lemma copy_transitions_doubles_witness :
  Transitions (mkNode "S0S1S1" (Some 4) false) = Some 4 ∧
  4 < length (w_heap (mkWorld empty_automata (scenarioB_heap ++ [∅]))) ∧
  Forall (λ mn, Transitions mn ≠ Some 4) [B0; B1; B1] ∧
  ∃ w', copy_transitions id_order (mkNode "S0S1S1" (Some 4) false) [B0; B1; B1]
          (mkWorld empty_automata (scenarioB_heap ++ [∅])) = Ok ((), w')
        ∧ (∀ b, b ≠ 4 → w_heap w' !! b = (scenarioB_heap ++ [∅]) !! b)
        ∧ ∀ key v, table_of (w_heap w') (mkNode "S0S1S1" (Some 4) false) !! key = Some v →
            table_of (scenarioB_heap ++ [∅]) (mkNode "S0S1S1" (Some 4) false) !! key = Some v
            ∨ ∃ mn ds, mn ∈ [B0; B1; B1]
                       ∧ table_of (scenarioB_heap ++ [∅]) mn !! key = Some ds
                       ∧ v = ds ++ ds.
Proof.
  split; [reflexivity|]. split; [vm_compute; lia|].
  split; [repeat constructor; done|].
  apply (copy_transitions_doubles id_order (mkNode "S0S1S1" (Some 4) false) [B0; B1; B1] 4
           (mkWorld empty_automata (scenarioB_heap ++ [∅]))).
  - reflexivity.
  - vm_compute; lia.
  - repeat constructor; done.
Defined.

(** ** Construction on an allocated node table *)

(** X12: a node just created can be looked up, and creating never fails on
    an allocated node table.  [CreateNode a] stores a non-final state named
    [a] with a new, empty transition table; it replaces whatever state was
    stored under [a], and a lookup of any other name gives what it gave
    before. *)
Theorem CreateNode_lookup (a : string) (start : node) (m : gmap string node) (h : heap) :
  ∃ n w', CreateNode a (mkWorld (mkAutomata start (Some m)) h) = Ok (n, w')
          ∧ n = mkNode a (Some (length h)) false
          ∧ read_nodes a w' = Ok ((n, true), w')
          ∧ (∀ b, b ≠ a →
               ∃ r, read_nodes b w' = Ok (r, w')
                    ∧ read_nodes b (mkWorld (mkAutomata start (Some m)) h)
                      = Ok (r, mkWorld (mkAutomata start (Some m)) h))
          ∧ w_heap w' = h ++ [∅]
          ∧ (∀ key, table_of (w_heap w') n !! key = None).
Proof.
  exists (mkNode a (Some (length h)) false),
    (mkWorld (mkAutomata start (Some (<[a := mkNode a (Some (length h)) false]> m))) (h ++ [∅])).
  split; [reflexivity|]. cbn. split; [done|]. split; [|split; [|split; [done|]]].
  - unfold read_nodes. cbn. by rewrite lookup_insert_eq.
  - intros b Hb. unfold read_nodes. cbn. rewrite lookup_insert_ne by done.
    destruct (m !! b); by eexists.
  - intros key. unfold table_of. cbn.
    rewrite lookup_app_r, Nat.sub_diag by done. cbn. apply lookup_empty.
Qed.

(** How [AddTransition] changes an allocated node table. *)
Lemma AddTransition_allocated (from input to : string) (start : node)
    (m : gmap string node) (h : heap) :
  ∃ n m' k,
    AddTransition (from, input, to) (mkWorld (mkAutomata start (Some m)) h)
      = Ok (n, mkWorld (mkAutomata start (Some m')) (h ++ replicate k ∅))
    ∧ k ≤ 2
    ∧ m' !! to = Some n
    ∧ m ⊆ m'
    ∧ dom m' = dom m ∪ {[from; to]}.
Proof.
  destruct (m !! from) as [nf|] eqn:Hfrom; destruct (m !! to) as [nt|] eqn:Hto;
    unfold AddTransition, read_nodes, CreateNode, make_table, write_nodes, get_heap,
      mbind, M_bind; cbn; rewrite ?Hfrom; cbn; rewrite ?Hto; cbn.
  - exists nt, m, 0. cbn. rewrite (right_id_L [] (++)).
    split; [done|]. split; [lia|]. split; [done|]. split; [done|].
    apply elem_of_dom_2 in Hfrom, Hto. set_solver.
  - eexists _, _, 1. cbn. split; [done|]. split; [lia|].
    split; [apply lookup_insert_eq|]. split; [by apply insert_subseteq|].
    rewrite dom_insert_L. apply elem_of_dom_2 in Hfrom. set_solver.
  - eexists _, _, 1. cbn. split; [done|]. split; [lia|].
    assert (from ≠ to) by congruence.
    split; [by rewrite lookup_insert_ne|]. split; [by apply insert_subseteq|].
    rewrite dom_insert_L. apply elem_of_dom_2 in Hto. set_solver.
  - eexists _, _, 2. cbn. rewrite <- (assoc_L (++)). cbn.
    split; [done|]. split; [lia|].
    split; [apply lookup_insert_eq|]. split.
    + destruct (decide (from = to)) as [->|Hne].
      * rewrite insert_insert_eq. by apply insert_subseteq.
      * trans (<[from := mkNode from (Some (length h)) false]> m);
          [by apply insert_subseteq|].
        apply insert_subseteq. by rewrite lookup_insert_ne.
    + rewrite !dom_insert_L. set_solver.
Qed.

(** X13: on an allocated node table [AddTransition] never fails.  It
    returns the state stored under the end name, keeps every state that was
    stored, stores a state for exactly the two names of the triple in
    addition, and adds at most two tables, both empty, to the heap. *)
Theorem AddTransition_creates_its_states (from input to : string) (start : node)
    (m : gmap string node) (h : heap) :
  ∃ n m' h',
    AddTransition (from, input, to) (mkWorld (mkAutomata start (Some m)) h)
      = Ok (n, mkWorld (mkAutomata start (Some m')) h')
    ∧ m' !! to = Some n
    ∧ (∀ name v, m !! name = Some v → m' !! name = Some v)
    ∧ (∀ name, is_Some (m' !! name) ↔ is_Some (m !! name) ∨ name = from ∨ name = to)
    ∧ length h' ≤ length h + 2
    ∧ (∀ a, a < length h → h' !! a = h !! a)
    ∧ (∀ a, length h ≤ a → a < length h' → h' !! a = Some ∅).
Proof.
  destruct (AddTransition_allocated from input to start m h)
    as (n & m' & k & Hrun & Hk & Hto & Hsub & Hdom).
  exists n, m', (h ++ replicate k ∅). split; [done|]. split; [done|]. split; [|split].
  - intros name v Hv. by eapply lookup_weaken.
  - intros name. rewrite <- !elem_of_dom, Hdom. set_solver.
  - rewrite length_app, length_replicate. split; [lia|]. split.
    + intros a Ha. by apply lookup_app_l.
    + intros a Hle Hlt. rewrite lookup_app_r by done.
      apply lookup_replicate_2. lia.
Qed.

(** X14: the states the body of [MakeAutomata] creates on an allocated node
    table are exactly those named by the triples and the start name, added
    to those already stored, which it keeps; the start state of the result
    is the state stored under the start name. *)
Theorem MakeAutomata_body_states (o : MapOrder)
    (transitions : list (string * string * string))
    (start_name : string) (finishStates : list string)
    (start0 : node) (m : gmap string node) (h : heap) :
  ∃ start m' h',
    MakeAutomata_body o transitions start_name finishStates
        (mkWorld (mkAutomata start0 (Some m)) h)
      = Ok ((), mkWorld (mkAutomata start (Some m')) h')
    ∧ m' !! start_name = Some start
    ∧ (∀ name v, m !! name = Some v → m' !! name = Some v)
    ∧ (∀ name, is_Some (m' !! name) ↔
         is_Some (m !! name) ∨ name = start_name
         ∨ ∃ t, t ∈ transitions ∧ (name = t.1.1 ∨ name = t.2)).
Proof.
  unfold MakeAutomata_body.
  assert (∀ start1 m1 h1, ∃ m2 h2,
            for_each transitions (λ newTransition, AddTransition newTransition ≫= λ _, mret ())
                (mkWorld (mkAutomata start1 (Some m1)) h1)
              = Ok ((), mkWorld (mkAutomata start1 (Some m2)) h2)
            ∧ m1 ⊆ m2
            ∧ ∀ name, name ∈ dom m2 ↔
                name ∈ dom m1 ∨ ∃ t, t ∈ transitions ∧ (name = t.1.1 ∨ name = t.2)) as Hloop.
  { induction transitions as [|[[from input] to] rest IH]; intros start1 m1 h1.
    - exists m1, h1. split; [done|]. split; [done|].
      intros name. split; [by left|]. intros [?|(t & Ht & _)]; [done|].
      by apply elem_of_nil in Ht.
    - destruct (AddTransition_allocated from input to start1 m1 h1)
        as (n & m2 & k & Hadd & _ & _ & Hsub & Hdom).
      destruct (IH start1 m2 (h1 ++ replicate k ∅)) as (m3 & h3 & Hrest & Hsub3 & Hdom3).
      exists m3, h3. split.
      { cbn [for_each]. erewrite bind_Ok; [exact Hrest|]. by erewrite bind_Ok. }
      split; [by etrans|].
      intros name. rewrite Hdom3, Hdom. split.
      + intros [[?|Hname]%elem_of_union|(t & Ht & Hor)].
        * by left.
        * right. exists (from, input, to). split; [by left|]. cbn. set_solver.
        * right. exists t. split; [by right|done].
      + intros [?|(t & [->|Ht]%elem_of_cons & Hor)].
        * left. set_solver.
        * left. cbn in Hor. set_solver.
        * right. by exists t. }
  destruct (Hloop start0 m h) as (m1 & h1 & Hrun1 & Hsub1 & Hdom1).
  rewrite (bind_Ok _ _ _ _ _ Hrun1). cbn zeta.
  rewrite (bind_Ok _ _ _ _ _ (mark_final_noop _ _)).
  unfold read_nodes, CreateNode, make_table, write_nodes, set_beginning, mbind, M_bind. cbn.
  destruct (m1 !! start_name) as [n|] eqn:Hstart; cbn.
  - exists n, m1, h1. split; [done|]. split; [done|]. split.
    + intros name v Hv. by eapply lookup_weaken.
    + intros name. rewrite <- !elem_of_dom, Hdom1. apply elem_of_dom_2 in Hstart.
      split; [intros [?|?]; auto|]. intros [?|[->|?]]; auto.
      by apply Hdom1.
  - eexists _, _, _. split; [done|]. split; [apply lookup_insert_eq|]. split.
    + intros name v Hv. eapply lookup_weaken; [exact Hv|].
      etrans; [exact Hsub1|]. by apply insert_subseteq.
    + intros name. rewrite <- !elem_of_dom, dom_insert_L, elem_of_union, Hdom1.
      rewrite elem_of_singleton. tauto.
Qed.

(** ** One goroutine of the search *)







(** ** Determinization: states met again, empty entries, and finals *)

(** X17: a composite state met again is taken from the node table.  When
    the composite name of the merged nodes is a key of the node table,
    [recursiveMerge] returns the state stored there and writes nothing. *)
Theorem recursiveMerge_reuses_state (o : MapOrder) (cfuel fuel : nat)
    (head : node) (w : world) :
  size (heap_names (w_heap w)) < cfuel →
  ∃ closure merged,
    EpsilonClosure o cfuel (w_heap w) head = Some closure
    ∧ closures_of o cfuel closure [] w = Ok (merged, w)
    ∧ ∀ m stored,
        nodes (w_auto w) = Some m →
        m !! compositNodeName (Name <$> merged) = Some stored →
        recursiveMerge o cfuel (S fuel) head w = Ok (stored, w).
Proof.
  intros Hfuel.
  destruct (closure_of_returns o cfuel head w Hfuel) as (closure & Hcl).
  destruct (closures_of_returns o cfuel closure [] w Hfuel) as (merged & Hcls).
  exists closure, merged. split.
  { unfold closure_of in Hcl. destruct (EpsilonClosure o cfuel (w_heap w) head); [|done].
    by injection Hcl as ->. }
  split; [done|]. intros m stored Hm Hstored.
  cbn [recursiveMerge]. rewrite (bind_Ok _ _ _ _ _ Hcl).
  unfold makeCompositNode.
  assert (∀ B (f : node * list node * bool → M world B),
            ((nodes ← closures_of o cfuel closure [];
              let newNameParts := foldl (λ parts nd, parts ++ [Name nd]) [] nodes in
              let newName := compositNodeName newNameParts in
              '(alreadyExistingNode, existsAlready) ← read_nodes newName;
              if existsAlready : bool then mret (alreadyExistingNode, nodes, true)
              else created ← CreateNode newName; mret (created, nodes, false)) ≫= f) w
            = f (stored, merged, true) w) as ->; [|done].
  intros B f. erewrite bind_Ok; [done|].
  rewrite (bind_Ok _ _ _ _ _ Hcls). cbn zeta. rewrite name_parts_fmap. cbn [app].
  unfold read_nodes, mbind, M_bind. by rewrite Hm, Hstored.
Qed.

Lemma recursiveMerge_reuses_state_witness :
  size (heap_names (w_heap revisit_world)) < 5 ∧
  ∃ closure merged,
    EpsilonClosure id_order 5 (w_heap revisit_world) A1 = Some closure
    ∧ closures_of id_order 5 closure [] revisit_world = Ok (merged, revisit_world)
    ∧ ∀ m stored,
        nodes (w_auto revisit_world) = Some m →
        m !! compositNodeName (Name <$> merged) = Some stored →
        recursiveMerge id_order 5 1 A1 revisit_world = Ok (stored, revisit_world).
Proof.
  split; [vm_compute; lia|].
  apply (recursiveMerge_reuses_state id_order 5 0 A1 revisit_world).
  vm_compute; lia.
Defined.

(** X18: an entry without destinations stops determinization.  When the
    start state has no silent step to a state of another name and one of
    its entries holds an empty destination list, [recursiveMerge] on a fresh
    node table does not return a state: it reaches [newNode[0]] on an empty
    slice, unless an earlier entry has failed already. *)
Theorem recursiveMerge_empty_entry (o : MapOrder) (cfuel fuel : nat) (h : heap)
    (head : node) (key : string) :
  table_of h head !! key = Some [] →
  (∀ d, epsilon_edge h head d → Name d = Name head) →
  ∀ start w',
    recursiveMerge o (S cfuel) fuel head (mkWorld empty_automata h) ≠ Ok (start, w').
Proof.
  intros Hkey Hself start w' Hrun. destruct fuel as [|fuel]; [done|].
  assert (∃ b, Transitions head = Some b ∧ b < length h) as (b & Hb & Hblt).
  { unfold table_of in Hkey. destruct (Transitions head) as [b|]; [|by rewrite lookup_empty in Hkey].
    exists b. split; [done|]. destruct (h !! b) eqn:Hl; [by eapply lookup_lt_Some|].
    cbn in Hkey. by rewrite lookup_empty in Hkey. }
  cbn [recursiveMerge] in Hrun.
  apply bind_Ok_inv in Hrun as (closure & w0 & Hcl & Hrun).
  unfold closure_of in Hcl. cbn [w_heap] in Hcl.
  rewrite (EpsilonClosure_singleton o cfuel h head Hself) in Hcl.
  injection Hcl as <- <-.
  apply bind_Ok_inv in Hrun as ([[returnNode merged] err] & w1 & Hmake & Hrun).
  unfold makeCompositNode in Hmake.
  apply bind_Ok_inv in Hmake as (merged' & w0 & Hcls & Hmake).
  cbn [closures_of] in Hcls. apply bind_Ok_inv in Hcls as (c & w0' & Hc & Hcls).
  unfold closure_of in Hc. cbn [w_heap] in Hc.
  rewrite (EpsilonClosure_singleton o cfuel h head Hself) in Hc.
  injection Hc as <- <-. injection Hcls as <- <-.
  cbn zeta in Hmake. cbn [app foldl] in Hmake.
  apply bind_Ok_inv in Hmake as ([existing found] & w0 & Hread & Hmake).
  unfold read_nodes in Hread. cbn in Hread. rewrite lookup_empty in Hread.
  injection Hread as <- <- <-. cbn beta iota in Hmake.
  apply bind_Ok_inv in Hmake as (created & w0 & Hcreate & Hmake).
  injection Hmake as <- <- <- <-.
  unfold CreateNode, make_table, write_nodes, mbind, M_bind in Hcreate.
  cbn in Hcreate. injection Hcreate as <- <-. cbn beta iota zeta in Hrun.
  apply bind_Ok_inv in Hrun as ([] & w2 & Hcopy & Hrun).
  apply bind_Ok_inv in Hrun as (h2 & w2' & Hget & Hrun). injection Hget as <- <-.
  apply bind_Ok_inv in Hrun as ([] & w3 & Hloop & _).
  set (ret := mkNode _ (Some (length h)) false) in *.
  set (w1 := mkWorld _ (h ++ [∅])) in *.
  assert (length h < length (w_heap w1)) as Hlen.
  { cbn. rewrite length_app. cbn. lia. }
  assert (table_of (w_heap w1) head !! key = Some []) as Hkey1.
  { unfold table_of. rewrite Hb. cbn. rewrite lookup_app_l by done.
    unfold table_of in Hkey. by rewrite Hb in Hkey. }
  destruct (copy_transitions_doubles o ret [head] (length h) w1 eq_refl Hlen)
    as (w2' & Hcopy' & _ & Hentries).
  { constructor; [|constructor]. rewrite Hb. intros [= ->]. lia. }
  rewrite Hcopy in Hcopy'. injection Hcopy' as <-.
  destruct (copy_transitions_keys o ret [head] (length h) w1 w2 eq_refl Hcopy)
    as (_ & Hkeys).
  assert (table_of (w_heap w2) ret !! key = Some []) as Hempty.
  { assert (key ∈ keys_at (w_heap w2) (length h)) as Hin.
    { apply (Hkeys Hlen head b); [by left|done|done|].
      unfold keys_at. unfold table_of in Hkey1. rewrite Hb in Hkey1.
      by eapply elem_of_dom_2. }
    unfold keys_at in Hin. apply elem_of_dom in Hin as [v Hv].
    assert (table_of (w_heap w2) ret !! key = Some v) as Hv' by done.
    destruct (Hentries key v Hv') as [Hold|(mn & ds & Hmn & Hds & ->)].
    - unfold table_of in Hold. cbn in Hold.
      rewrite lookup_app_r, Nat.sub_diag in Hold by done. cbn in Hold.
      by rewrite lookup_empty in Hold.
    - apply list_elem_of_singleton in Hmn as ->.
      rewrite Hkey1 in Hds. injection Hds as <-. exact Hv'. }
  assert ((key, []) ∈ range_map o (table_of (w_heap w2)
            (mkNode (Name ret) (Transitions ret) (merged_final [head])))) as Hin.
  { unfold range_map. rewrite (reorder_perm o). by apply elem_of_map_to_list. }
  assert (PreOrder (λ _ _ : world, True)) as Htrue by (by split).
  destruct (for_each_elem (λ _ _ : world, True) _ _ (key, []) (λ _ _ _ _ _, I) Hin
              _ _ Hloop) as (s1 & s2 & _ & Hbody & _).
  done.
Qed.

Lemma recursiveMerge_empty_entry_witness :
  table_of stuck_heap stuck_state !! "a" = Some [] ∧
  (∀ d, epsilon_edge stuck_heap stuck_state d → Name d = Name stuck_state) ∧
  ∀ start w',
    recursiveMerge id_order 1 5 stuck_state (mkWorld empty_automata stuck_heap)
      ≠ Ok (start, w').
Proof.
  split; [reflexivity|]. split.
  - intros d Hd. vm_compute in Hd. by apply elem_of_nil in Hd.
  - apply (recursiveMerge_empty_entry id_order 0 5 stuck_heap stuck_state "a").
    + reflexivity.
    + intros d Hd. vm_compute in Hd. by apply elem_of_nil in Hd.
Defined.

(** On the state with the empty entry the failure is the index panic. *)
Example recursiveMerge_stuck_state :
  recursiveMerge id_order 1 5 stuck_state (mkWorld empty_automata stuck_heap)
    = Panic IndexOutOfRange.
Proof. vm_compute. reflexivity. Qed.

(** X19: the final names and the iteration order play no part in
    construction: on every world the body of [MakeAutomata] does the same
    whatever [finishStates] and whatever order the loop over the final names
    takes. *)
Theorem MakeAutomata_body_ignores_finals (o1 o2 : MapOrder)
    (transitions : list (string * string * string)) (start_name : string)
    (finishStates1 finishStates2 : list string) (w : world) :
  MakeAutomata_body o1 transitions start_name finishStates1 w
  = MakeAutomata_body o2 transitions start_name finishStates2 w.
Proof.
  unfold MakeAutomata_body, mbind, M_bind.
  destruct (for_each transitions _ w) as [[[] w1]| |]; [|reflexivity..].
  cbn zeta. rewrite !mark_final_noop. reflexivity.
Qed.
